(** * esrgan.models.discriminator: assembly of the discriminator networks

    A shallow embedding of [src/esrgan/models/discriminator.py]
    ([StridedConvEncoder], [LinearHead], [VGGConv]) together with the
    properties of the assembled architectures.

    Python values are embedded as follows:
    - [int] is [Z] (unbounded), [//] is floor division and raises
      [ZeroDivisionError] on a zero divisor;
    - exceptions are the [Raise] branch of [result];
    - a [dict] with string keys is a [gmap string _], an [OrderedDict] is an
      association list with Python's "overwrite in place" insertion;
    - a constructed [nn.Module] is the tree of constructor calls that built
      it ([nn_Module]); a module that is only ever called is its forward
      function ([VGGConv.forward_fn]);
    - a tensor is its shape, its strides and its elements
      ([VGGConv.Tensor]); [Tensor.view] is [torch]'s size inference followed
      by its stride computation, and raises where either fails. *)

From stdpp Require Import base gmap strings list pretty.

Set Warnings "-register-all".
Open Scope Z_scope.

(** ** Exceptions *)

Inductive exn : Type :=
| IndexError
| KeyError (key : string)
| ZeroDivisionError
| TypeError
| RuntimeError
| ConfigurationError.

Inductive result (A : Type) : Type :=
| Ok (a : A)
| Raise (e : exn).
Arguments Ok {A} a.
Arguments Raise {A} e.

#[export] Instance result_ret : MRet result := fun A a => Ok a.
#[export] Instance result_bind : MBind result := fun A B f m =>
  match m with
  | Ok a => f a
  | Raise e => Raise e
  end.

Definition is_Ok {A} (r : result A) : Prop := exists a, r = Ok a.

(** [for x in xs: acc = body(acc, x)], stopping at the first exception. *)
Fixpoint for_each {A S : Type} (body : S -> A -> result S) (acc : S) (xs : list A)
  : result S :=
  match xs with
  | [] => Ok acc
  | x :: xs' => acc' ← body acc x; for_each body acc' xs'
  end.

(** ** Python built-ins *)

(** [l[i]] on a list, negative indices counting from the end. *)
Definition getitem {A} (l : list A) (i : Z) : result A :=
  let j := if bool_decide (i < 0) then i + Z.of_nat (length l) else i in
  if bool_decide (j < 0) then Raise IndexError
  else match l !! Z.to_nat j with
       | Some x => Ok x
       | None => Raise IndexError
       end.

(** [l[1:]] and [l[:-1]]. *)
Definition slice_from_1 {A} (l : list A) : list A := drop 1 l.
Definition slice_to_last {A} (l : list A) : list A := take (length l - 1)%nat l.

(** [d[k]] on a dict. *)
Definition dict_getitem {V} (d : gmap string V) (k : string) : result V :=
  match d !! k with
  | Some v => Ok v
  | None => Raise (KeyError k)
  end.

(** [a // b]. *)
Definition floordiv (a b : Z) : result Z :=
  if bool_decide (b = 0) then Raise ZeroDivisionError else Ok (a `div` b).

(** [enumerate(xs, start)]. *)
Definition enumerate {A} (start : nat) (xs : list A) : list (nat * A) :=
  imap (fun i x => ((start + i)%nat, x)) xs.

(** [collections.OrderedDict(items)]: a key seen again keeps its position and
    takes the new value. *)
Fixpoint od_set {V} (k : string) (v : V) (d : list (string * V)) : list (string * V) :=
  match d with
  | [] => [(k, v)]
  | (k', v') :: d' =>
      if bool_decide (k = k') then (k, v) :: d' else (k', v') :: od_set k v d'
  end.

Definition OrderedDict {V} (items : list (string * V)) : list (string * V) :=
  foldl (fun d kv => od_set kv.1 kv.2 d) [] items.

(** ** Modules as construction trees *)

(** A callable is known by its qualified name ([nn.Linear],
    [modules.Conv2d], a [functools.partial] the caller built, ...). *)
Definition callable : Type := string.

Inductive nn_Module : Type :=
| Call (f : callable) (args : list Z) (kwargs : list (string * Z))
    (* the module returned by [f( *args, **kwargs)] *)
| Wrap (f : callable) (block : nn_Module)
    (* the module returned by [f(block)] *)
| Sequential (children : list (string * nn_Module))
    (* [nn.Sequential] with its named children, in order *)
| Disabled.
    (* the place of a role whose factory is [None] *)

(** Calling a value that may be [None]. *)
Definition call (f : option callable) (args : list Z) (kwargs : list (string * Z))
  : result nn_Module :=
  match f with
  | Some f => Ok (Call f args kwargs)
  | None => Raise TypeError
  end.

(** [nn.Sequential(ordered_dict)] and [nn.Sequential( *modules)]; the latter
    names its children ["0"], ["1"], ... *)
Definition Sequential_dict (d : list (string * nn_Module)) : nn_Module :=
  Sequential d.
Definition Sequential_args (ms : list nn_Module) : nn_Module :=
  Sequential (imap (fun i m => (pretty i, m)) ms).

Definition children (m : nn_Module) : list (string * nn_Module) :=
  match m with
  | Sequential cs => cs
  | _ => []
  end.

Definition is_wrapped (m : nn_Module) : bool :=
  match m with
  | Wrap _ _ => true
  | _ => false
  end.

Definition made_by (f : callable) (m : nn_Module) : bool :=
  match m with
  | Call g _ _ => bool_decide (g = f)
  | _ => false
  end.

(** ** esrgan.utils *)

(** Modelled from the spec: [utils.pairwise] is not in src/. The spec has the
    encoder and the head "derive adjacent pairs" of a channel list:
    [s -> (s0, s1), (s1, s2), ...]. *)
Definition pairwise {A} (s : list A) : list (A * A) := zip s (drop 1 s).

(** Modelled from the spec: [utils.create_layer] is not in src/. The spec
    instantiates "the corresponding layer with in_ch, out_ch", passing the
    extra keyword arguments on (the layer factory interface is
    [(in_channels, out_channels, **extra)]); a role whose factory is [None]
    is disabled and contributes no layer. *)
Definition create_layer (layer_name : string) (layer : option callable)
    (in_channels out_channels : Z) (kwargs : list (string * Z)) : nn_Module :=
  match layer with
  | Some f => Call f [in_channels; out_channels] kwargs
  | None => Disabled
  end.

(** ** StridedConvEncoder *)

Module StridedConvEncoder.

Record t : Type := { _layers : list Z; net : nn_Module }.

Definition default_layers : list Z := [3; 64; 128; 128; 256; 256; 512; 512].
Definition default_layer_order : list string := ["conv"; "norm"; "activation"].
Definition default_conv : callable := "modules.Conv2d".
Definition default_norm : option callable := Some "nn.BatchNorm2d".
Definition default_activation : callable := "modules.LeakyReLU".
Definition default_residual : option callable := None.

Definition name2fn (conv : callable) (norm : option callable)
    (activation : callable) : gmap string (option callable) :=
  {[ "activation" := Some activation; "conv" := Some conv; "norm" := norm ]}.

(** Body of [for name in layer_order] (lines 64-75). *)
Definition add_layer (fns : gmap string (option callable)) (in_ch out_ch : Z)
    (block_list : list (string * nn_Module)) (name : string)
  : result (list (string * nn_Module)) :=
  kwargs ← (if bool_decide (name = "conv")
            then stride ← floordiv out_ch in_ch; mret [("stride", stride)]
            else mret []);
  layer ← dict_getitem fns name;
  let module := create_layer name layer in_ch out_ch kwargs in
  mret (block_list ++ [(name, module)]).

(** Body of [for i, (in_ch, out_ch) in enumerate(channels, start=1)]
    (lines 62-82). *)
Definition add_block (fns : gmap string (option callable))
    (layer_order : list string) (residual : option callable)
    (net : list (string * nn_Module)) (item : nat * (Z * Z))
  : result (list (string * nn_Module)) :=
  let '(i, (in_ch, out_ch)) := item in
  block_list ← for_each (add_layer fns in_ch out_ch) [] layer_order;
  let block := Sequential_dict (OrderedDict block_list) in
  let block :=
    match residual with
    | Some r => if bool_decide (in_ch = out_ch) then Wrap r block else block
    | None => block
    end in
  mret (net ++ [("block_" +:+ pretty i, block)]).

Definition __init__ (layers : list Z) (layer_order : list string)
    (conv : callable) (norm : option callable) (activation : callable)
    (residual : option callable) : result t :=
  let fns := name2fn conv norm activation in
  let _layers := layers in
  conv_fn ← dict_getitem fns "conv";
  l0 ← getitem _layers 0;
  l1 ← getitem _layers 1;
  conv_0 ← call conv_fn [l0; l1] [];
  act_fn ← dict_getitem fns "activation";
  act ← call act_fn [] [];
  let first_conv := OrderedDict [("conv_0", conv_0); ("act", act)] in
  let net := [("block_0", Sequential_dict first_conv)] in
  let channels := pairwise (slice_from_1 _layers) in
  net ← for_each (add_block fns layer_order residual) net (enumerate 1 channels);
  mret {| _layers := _layers; net := Sequential_dict (OrderedDict net) |}.

Definition in_channels (self : t) : result Z := getitem (_layers self) 0.
Definition out_channels (self : t) : result Z := getitem (_layers self) (-1).

(** *** Closed forms of what the loops build, for the proofs below *)

(** The loop body goes through for [name]: the role is a key of the
    mapping and the stride division is defined. *)
Definition layer_ok (fns : gmap string (option callable)) (in_ch : Z)
    (name : string) : Prop :=
  is_Some (fns !! name) /\ (name = "conv" -> in_ch ≠ 0).

(** The layer it then appends for [name]. *)
Definition layer_of (fns : gmap string (option callable)) (in_ch out_ch : Z)
    (name : string) : nn_Module :=
  create_layer name (default None (fns !! name)) in_ch out_ch
    (if bool_decide (name = "conv") then [("stride", out_ch `div` in_ch)] else []).

Definition plain_block_of (fns : gmap string (option callable))
    (layer_order : list string) (pair : Z * Z) : nn_Module :=
  Sequential
    (OrderedDict ((fun name => (name, layer_of fns pair.1 pair.2 name)) <$> layer_order)).

Definition block_of (fns : gmap string (option callable))
    (layer_order : list string) (residual : option callable) (pair : Z * Z)
  : nn_Module :=
  match residual with
  | Some r =>
      if bool_decide (pair.1 = pair.2)
      then Wrap r (plain_block_of fns layer_order pair)
      else plain_block_of fns layer_order pair
  | None => plain_block_of fns layer_order pair
  end.

Definition stem (conv activation : callable) (l0 l1 : Z) : nn_Module :=
  Sequential [("conv_0", Call conv [l0; l1] []); ("act", Call activation [] [])].

Definition blocks_of (fns : gmap string (option callable))
    (layer_order : list string) (residual : option callable) (start : nat)
    (channels : list (Z * Z)) : list (string * nn_Module) :=
  imap (fun k pair => ("block_" +:+ pretty (start + k)%nat,
                       block_of fns layer_order residual pair)) channels.

(** The block under a residual wrapper, or the block itself. *)
Definition unwrap (m : nn_Module) : nn_Module :=
  match m with
  | Wrap _ block => block
  | _ => m
  end.

End StridedConvEncoder.

(** ** LinearHead *)

Module LinearHead.

Record t : Type := { net : nn_Module }.

Definition default_layer_order : list string := ["linear"; "activation"].
Definition default_linear : callable := "nn.Linear".
Definition default_activation : callable := "modules.LeakyReLU".

Definition name2fn (linear activation : callable) (norm dropout : option callable)
  : gmap string (option callable) :=
  {[ "activation" := Some activation; "dropout" := dropout;
     "linear" := Some linear; "norm" := norm ]}.

(** Body of [for name in layer_order] (lines 168-175). *)
Definition add_layer (fns : gmap string (option callable)) (in_ch out_ch : Z)
    (net : list nn_Module) (name : string) : result (list nn_Module) :=
  layer ← dict_getitem fns name;
  let module := create_layer name layer in_ch out_ch [] in
  mret (net ++ [module]).

(** Body of [for in_ch, out_ch in channels_pairs[:-1]] (lines 167-175). *)
Definition add_pair (fns : gmap string (option callable))
    (layer_order : list string) (net : list nn_Module) (pair : Z * Z)
  : result (list nn_Module) :=
  for_each (add_layer fns pair.1 pair.2) net layer_order.

Definition __init__ (in_channels out_channels : Z)
    (latent_channels : option (list Z)) (layer_order : list string)
    (linear activation : callable) (norm dropout : option callable) : result t :=
  let fns := name2fn linear activation norm dropout in
  let latent_channels := default [] latent_channels in
  let channels := in_channels :: latent_channels ++ [out_channels] in
  let channels_pairs := pairwise channels in
  net ← for_each (add_pair fns layer_order) [] (slice_to_last channels_pairs);
  linear_fn ← dict_getitem fns "linear";
  last_pair ← getitem channels_pairs (-1);
  final ← call linear_fn [last_pair.1; last_pair.2] [];
  mret {| net := Sequential_args (net ++ [final]) |}.

(** *** Closed forms of what the loops build, for the proofs below *)

(** The layers the inner loop appends for one pair of channels. *)
Definition layers_of (fns : gmap string (option callable))
    (layer_order : list string) (pair : Z * Z) : list nn_Module :=
  (fun name => create_layer name (default None (fns !! name)) pair.1 pair.2 [])
    <$> layer_order.

(** The modules of the network, in order, without their names. *)
Definition modules (self : t) : list nn_Module := (children (net self)).*2.


(** How many times [name] occurs in a layer order. *)
Definition occurrences (name : string) (layer_order : list string) : nat :=
  length (filter (fun n => n = name) layer_order).

End LinearHead.

(** ** VGGConv *)

(** Calls made to external routines are recorded in a trace, which survives
    an exception. *)
Definition traced (E A : Type) : Type := list E -> result A * list E.

#[export] Instance traced_ret {E} : MRet (traced E) := fun A a tr => (Ok a, tr).
#[export] Instance traced_bind {E} : MBind (traced E) := fun A B f m tr =>
  match m tr with
  | (Ok a, tr') => f a tr'
  | (Raise e, tr') => (Raise e, tr')
  end.

Definition emit {E} (e : E) : traced E unit := fun tr => (Ok tt, tr ++ [e]).
Definition lift {E A} (r : result A) : traced E A := fun tr => (r, tr).

Fixpoint for_each_traced {E A S : Type} (body : S -> A -> traced E S) (acc : S)
    (xs : list A) : traced E S :=
  match xs with
  | [] => mret acc
  | x :: xs' => acc' ← body acc x; for_each_traced body acc' xs'
  end.

Module VGGConv.
Section WithScalar.
Context {scalar : Type}.

(** A tensor: its [shape], the [stride] of each axis in the underlying
    storage, and its elements in row-major order of their indices. *)
Record Tensor : Type := { shape : list Z; stride : list Z; data : list scalar }.

Definition numel (size : list Z) : Z := foldr Z.mul 1 size.

(** The strides of a freshly allocated tensor: row-major without gaps,
    [stride[i] = stride[i+1] * max(size[i+1], 1)], the last one being 1. *)
Fixpoint contiguous_strides (size : list Z) : list Z :=
  match size with
  | [] => []
  | _ :: rest => numel (Z.max 1 <$> rest) :: contiguous_strides rest
  end.

Definition contiguous (x : Tensor) : Prop :=
  stride x = contiguous_strides (shape x).

(** The tensor that [torch.tensor] makes of the given sizes and elements. *)
Definition dense (size : list Z) (elements : list scalar) : Tensor :=
  {| shape := size; stride := contiguous_strides size; data := elements |}.

(** [torch]'s size inference for [Tensor.view]: at most one [-1], which
    takes what is left of the element count. *)
Definition infer_size (size : list Z) (n : Z) : result (list Z) :=
  if bool_decide (Exists (fun d => d < -1) size) then Raise RuntimeError
  else if bool_decide (1 < length (filter (fun d => d = (-1)%Z) size))%nat
  then Raise RuntimeError
  else
    let newsize := numel (filter (fun d => d ≠ -1) size) in
    let infer := bool_decide (-1 ∈ size) in
    if bool_decide (n = newsize ∨ (infer ∧ 0 < newsize ∧ n `mod` newsize = 0))
    then
      if infer then
        if bool_decide (newsize = 0) then Raise RuntimeError
        else Ok ((fun d => if bool_decide (d = -1) then n `div` newsize else d)
                   <$> size)
      else Ok size
    else Raise RuntimeError.

(** [torch]'s stride computation for [Tensor.view] ([computeStride]).  The
    axes of the tensor are cut, from the last one, into chunks that lie in
    the storage without a gap; the axes of the view, from the last one, are
    given strides as long as they fill the current chunk.  [rold] and [rnew]
    are the axes of the tensor (size and stride) and the sizes of the view,
    last axis first; [acc] the strides given so far. *)
Fixpoint view_chunk (base tensor_numel view_numel : Z) (rnew acc : list Z)
  : Z * list Z * list Z :=
  match rnew with
  | d :: rnew' =>
      if bool_decide (view_numel < tensor_numel ∨ d = 1)
      then view_chunk base tensor_numel (view_numel * d) rnew'
             (view_numel * base :: acc)
      else (view_numel, rnew, acc)
  | [] => (view_numel, [], acc)
  end.

Definition all_viewed (rnew acc : list Z) : option (list Z) :=
  match rnew with
  | [] => Some acc
  | _ :: _ => None
  end.

Fixpoint chunks (rold : list (Z * Z)) (base tensor_numel view_numel : Z)
    (rnew acc : list Z) : option (list Z) :=
  match rold with
  | [] => all_viewed rnew acc
  | (size, _) :: rold' =>
      let tensor_numel := tensor_numel * size in
      match rold' with
      | [] =>
          let '(view_numel, rnew, acc) :=
            view_chunk base tensor_numel view_numel rnew acc in
          if bool_decide (view_numel = tensor_numel) then all_viewed rnew acc
          else None
      | (size', stride') :: _ =>
          if bool_decide (size' ≠ 1 ∧ stride' ≠ tensor_numel * base) then
            let '(view_numel, rnew, acc) :=
              view_chunk base tensor_numel view_numel rnew acc in
            if bool_decide (view_numel = tensor_numel)
            then chunks rold' stride' 1 1 rnew acc
            else None
          else chunks rold' base tensor_numel view_numel rnew acc
      end
  end.

Definition compute_stride (oldshape oldstride newshape : list Z)
  : option (list Z) :=
  if bool_decide (oldshape = []) then Some (replicate (length newshape) 1)
  else if bool_decide (numel oldshape = 0) then
    if bool_decide (oldshape = newshape) then Some oldstride
    else Some (contiguous_strides newshape)
  else chunks (reverse (zip oldshape oldstride)) (default 0 (last oldstride))
         1 1 (reverse newshape) [].

(** [x.view(size)]: the same elements under another shape, without a copy;
    it raises when the sizes do not fit the element count or the strides
    do not allow it. *)
Definition view (x : Tensor) (size : list Z) : result Tensor :=
  size' ← infer_size size (numel (shape x));
  match compute_stride (shape x) (stride x) size' with
  | Some stride' => Ok {| shape := size'; stride := stride'; data := data x |}
  | None => Raise RuntimeError
  end.

(** Invariants of the stride computation. *)

(** Sizes and strides, last axis first, of a row-major layout without gaps:
    the stride of an axis is the element count of the axes after it. *)
Fixpoint row_major (tensor_numel : Z) (rold : list (Z * Z)) : Prop :=
  match rold with
  | [] => True
  | (size, stride) :: rold' =>
      stride = tensor_numel /\ row_major (tensor_numel * size) rold'
  end.

(** The axes of the view still without a stride, and the strides given so
    far, while [d0, n] is viewed. *)
Inductive flat_state (d0 n : Z) : list Z -> list Z -> Prop :=
| flat_none : flat_state d0 n [n; d0] []
| flat_last t1 : d0 ≠ 1 -> 1 <= n -> flat_state d0 n [d0] [t1]
| flat_both t0 t1 : 1 <= n -> (d0 = 1 -> t0 = n * t1) -> flat_state d0 n [] [t0; t1].

(** A module that is only called: its forward function under the current
    parameters. *)
Definition forward_fn : Type := Tensor -> result Tensor.

Record t : Type := { encoder : forward_fn; pool : forward_fn; head : forward_fn }.

Inductive event : Type :=
| NetInit (net : t)
| ModuleCall (attr : string) (x : Tensor).

Definition is_NetInit (e : event) : bool :=
  match e with
  | NetInit _ => true
  | ModuleCall _ _ => false
  end.

(** A stretch of the trace without a call to the initialisation routine. *)
Definition quiet (evs : list event) : Prop :=
  Forall (fun e => is_NetInit e = false) evs.

(** [utils.net_init_] is not in src/ and is taken as a parameter: the
    specification has it take "the fully-assembled network", mutate "its
    parameters in place" and return nothing that is used, so it is a function
    from the network before to the network after. *)
Variable net_init_ : t -> t.

Definition call_net_init_ (net : t) : traced event t :=
  _ ← emit (NetInit net); mret (net_init_ net).

Definition call_module (attr : string) (m : forward_fn) (x : Tensor)
  : traced event Tensor :=
  _ ← emit (ModuleCall attr x); lift (m x).

Definition __init__ (encoder pool head : forward_fn) : traced event t :=
  let self := {| encoder := encoder; pool := pool; head := head |} in
  call_net_init_ self.

Definition forward (self : t) (x : Tensor) : traced event Tensor :=
  x ← call_module "encoder" (encoder self) x;
  x ← call_module "pool" (pool self) x;
  d0 ← lift (getitem (shape x) 0);
  x ← lift (view x [d0; -1]);
  x ← call_module "head" (head self) x;
  mret x.

(** Line 228 on its own: [x.view(x.shape[0], -1)]. *)
Definition flatten (x : Tensor) : result Tensor :=
  d0 ← getitem (shape x) 0; view x [d0; -1].


(** A session: construction, then any number of forward calls. *)
Definition session (encoder pool head : forward_fn) (xs : list Tensor)
  : traced event (list Tensor) :=
  self ← __init__ encoder pool head;
  for_each_traced (fun ys x => y ← forward self x; mret (ys ++ [y])) [] xs.

End WithScalar.
End VGGConv.

(** ** Observations on assembled networks *)

(** [d.get(k)] on an [OrderedDict]. *)
Fixpoint od_get {V} (k : string) (d : list (string * V)) : option V :=
  match d with
  | [] => None
  | (k', v) :: d' => if bool_decide (k = k') then Some v else od_get k d'
  end.

(** The names of the children of a container, in order. *)
Definition names (m : nn_Module) : list string := (children m).*1.

(** The two positional arguments (input and output channels) a layer was
    made with. *)
Definition call_channels (m : nn_Module) : option (Z * Z) :=
  match m with
  | Call _ [a; b] _ => Some (a, b)
  | _ => None
  end.

(** The convolution of an encoder block: the child [conv_0] of the stem, the
    child [conv] of a later block, looked up under a residual wrapper if
    there is one. *)
Definition block_conv (block : nn_Module) : option nn_Module :=
  let cs := children (StridedConvEncoder.unwrap block) in
  match od_get "conv_0" cs with
  | Some m => Some m
  | None => od_get "conv" cs
  end.

Definition conv_channels (block : nn_Module) : option (Z * Z) :=
  block_conv block ≫= call_channels.

(** The first role of a layer order that is not a key of the mapping, with
    its position. *)
Definition first_unregistered (fns : gmap string (option callable))
    (layer_order : list string) : option (nat * string) :=
  list_find (fun name => fns !! name = None) layer_order.

(** * Properties *)

(** ** The model on concrete inputs *)

Example getitem_negative : getitem [10; 20; 30] (-1) = Ok 30.
Proof. reflexivity. Qed.

Example getitem_out_of_range : getitem [10; 20; 30] 3 = Raise IndexError.
Proof. reflexivity. Qed.

Example floordiv_floors : floordiv 100 64 = Ok 1 /\ floordiv (-7) 2 = Ok (-4).
Proof. split; reflexivity. Qed.

Example floordiv_by_zero : floordiv 5 0 = Raise ZeroDivisionError.
Proof. reflexivity. Qed.

Example OrderedDict_repeated_key :
  OrderedDict [("a", 1); ("b", 2); ("a", 3)] = [("a", 3); ("b", 2)].
Proof. reflexivity. Qed.

Example pairwise_schedule : pairwise [64; 128; 128; 256] = [(64, 128); (128, 128); (128, 256)].
Proof. reflexivity. Qed.

(** The default encoder: a stem and six blocks, whose convolutions have
    stride 2 where the channels double and stride 1 where they stay. *)
Example default_encoder_strides :
  (fun self =>
     (fun block => (block.1, (children block.2).*2 ≫= fun layer =>
                      match layer with Call _ _ kwargs => kwargs.*2 | _ => [] end))
       <$> children (StridedConvEncoder.net self))
  <$> (match StridedConvEncoder.__init__ StridedConvEncoder.default_layers
               StridedConvEncoder.default_layer_order StridedConvEncoder.default_conv
               StridedConvEncoder.default_norm StridedConvEncoder.default_activation
               StridedConvEncoder.default_residual with
       | Ok self => Some self
       | Raise _ => None
       end)
  = Some [("block_0", []); ("block_1", [2]); ("block_2", [1]); ("block_3", [2]);
          ("block_4", [1]); ("block_5", [2]); ("block_6", [1])].
Proof. vm_compute. reflexivity. Qed.

Example encoder_zero_channels :
  StridedConvEncoder.__init__ [3; 0; 8] ["conv"] "modules.Conv2d" None
    "modules.LeakyReLU" None = Raise ZeroDivisionError.
Proof. reflexivity. Qed.

Example default_head :
  LinearHead.__init__ 512 1 (Some [128]) LinearHead.default_layer_order
    LinearHead.default_linear LinearHead.default_activation None None
  = Ok {| LinearHead.net :=
            Sequential [("0", Call "nn.Linear" [512; 128] []);
                        ("1", Call "modules.LeakyReLU" [512; 128] []);
                        ("2", Call "nn.Linear" [128; 1] [])] |}.
Proof. reflexivity. Qed.

Example flatten_pooled_batch :
  VGGConv.flatten (VGGConv.dense [2; 3; 1; 1] [1; 2; 3; 4; 5; 6])
  = Ok (VGGConv.dense [2; 3] [1; 2; 3; 4; 5; 6]).
Proof. reflexivity. Qed.

(** [view] cannot infer the [-1] of an empty batch, and a 0-dim tensor has no
    first axis. *)
Example flatten_empty_batch :
  VGGConv.flatten (VGGConv.dense [0; 3] (@nil Z)) = Raise RuntimeError /\
  VGGConv.flatten (VGGConv.dense [] [7]) = Raise IndexError.
Proof. split; reflexivity. Qed.

(** A pooled batch in the channels-last memory format is flattened without
    a copy; a batch whose last two axes were transposed is not. *)
Example flatten_channels_last :
  VGGConv.flatten {| VGGConv.shape := [2; 3; 1; 1]; VGGConv.stride := [3; 1; 3; 3];
                     VGGConv.data := [1; 2; 3; 4; 5; 6] |}
  = Ok (VGGConv.dense [2; 3] [1; 2; 3; 4; 5; 6]).
Proof. reflexivity. Qed.

Example flatten_transposed :
  VGGConv.flatten {| VGGConv.shape := [2; 4; 3]; VGGConv.stride := [12; 1; 4];
                     VGGConv.data := @nil Z |}
  = Raise RuntimeError.
Proof. reflexivity. Qed.

Example view_strides :
  VGGConv.compute_stride [2; 3; 4] [12; 4; 1] [6; 4] = Some [4; 1] /\
  VGGConv.compute_stride [2; 3; 4] [24; 8; 2] [2; 12] = Some [24; 2] /\
  VGGConv.compute_stride [2; 3; 4] [24; 8; 1] [2; 12] = None /\
  VGGConv.compute_stride [4; 3] [1; 4] [2; 2; 3] = Some [2; 1; 4] /\
  VGGConv.compute_stride [4; 3] [1; 4] [12] = None.
Proof. repeat split. Qed.

(** ** The exception monad *)

Lemma bind_Ok_inv {A B} (m : result A) (f : A -> result B) (b : B) :
  m ≫= f = Ok b -> exists a, m = Ok a /\ f a = Ok b.
Proof. destruct m as [a|e]; [eauto | discriminate]. Qed.

Lemma bind_Raise_inv {A B} (m : result A) (f : A -> result B) (e : exn) :
  m ≫= f = Raise e -> m = Raise e \/ exists a, m = Ok a /\ f a = Raise e.
Proof. destruct m as [a|e']; simpl; intros H; [right; eauto | left; congruence]. Qed.

Lemma for_each_cons {A S} (body : S -> A -> result S) acc x xs :
  for_each body acc (x :: xs) = body acc x ≫= fun acc' => for_each body acc' xs.
Proof. reflexivity. Qed.

(** ** Lists and dictionaries *)

Lemma getitem_0 {A} (l : list A) : getitem l 0 = from_option Ok (Raise IndexError) (head l).
Proof. destruct l; reflexivity. Qed.

Lemma getitem_last {A} (l : list A) :
  getitem l (-1) = from_option Ok (Raise IndexError) (last l).
Proof.
  destruct l as [|x l]; [reflexivity|].
  unfold getitem. change (bool_decide (-1 < 0)) with true. cbv beta iota zeta.
  rewrite (bool_decide_eq_false_2 (-1 + Z.of_nat (length (x :: l)) < 0))
    by (simpl; lia).
  replace (Z.to_nat (-1 + Z.of_nat (length (x :: l)))) with (Nat.pred (length (x :: l)))
    by (simpl; lia).
  rewrite <- last_lookup. destruct (last (x :: l)); reflexivity.
Qed.

Lemma enumerate_cons {A} (start : nat) (x : A) xs :
  enumerate start (x :: xs) = (start, x) :: enumerate (S start) xs.
Proof.
  unfold enumerate. simpl. f_equal; [f_equal; lia|].
  apply imap_ext. intros i y _. simpl. f_equal. lia.
Qed.

Lemma pairwise_cons2 {A} (x y : A) l : pairwise (x :: y :: l) = (x, y) :: pairwise (y :: l).
Proof. reflexivity. Qed.

Lemma pairwise_length {A} (l : list A) : length (pairwise l) = (length l - 1)%nat.
Proof. unfold pairwise. rewrite length_zip_with, length_drop. lia. Qed.

(** An [OrderedDict] built from distinct keys keeps the items as given. *)
Lemma od_set_fresh {V} (k : string) (v : V) d :
  k ∉ d.*1 -> od_set k v d = d ++ [(k, v)].
Proof.
  induction d as [|[k' v'] d IH]; simpl; intros Hk; [reflexivity|].
  rewrite not_elem_of_cons in Hk. destruct Hk as [Hne Hk].
  rewrite bool_decide_eq_false_2 by exact Hne. by rewrite IH.
Qed.

Lemma OrderedDict_foldl_NoDup {V} (items acc : list (string * V)) :
  NoDup ((acc ++ items).*1) ->
  foldl (fun d kv => od_set kv.1 kv.2 d) acc items = acc ++ items.
Proof.
  revert acc. induction items as [|[k v] items IH]; intros acc Hnd; simpl.
  - by rewrite app_nil_r.
  - rewrite od_set_fresh.
    + rewrite IH; rewrite <- app_assoc; [reflexivity | exact Hnd].
    + rewrite fmap_app in Hnd. apply NoDup_app in Hnd as (_ & Hd & _).
      intros Hin. apply (Hd k Hin). simpl. left.
Qed.

Lemma OrderedDict_NoDup {V} (items : list (string * V)) :
  NoDup (items.*1) -> OrderedDict items = items.
Proof. intros H. unfold OrderedDict. by rewrite OrderedDict_foldl_NoDup. Qed.

(** Keys and values of an [OrderedDict] whose values are a function of the
    key. *)
Lemma od_set_elem_of {V} (k : string) (v : V) d (x : string * V) :
  x ∈ od_set k v d -> x = (k, v) \/ x ∈ d.
Proof.
  induction d as [|[k' v'] d IH]; simpl.
  - rewrite list_elem_of_singleton. auto.
  - case_bool_decide; rewrite !elem_of_cons; [tauto|].
    intros [->|Hx]; [tauto|]. destruct (IH Hx); tauto.
Qed.

Lemma od_set_key {V} (k : string) (v : V) d (k' : string) :
  k' ∈ (od_set k v d).*1 <-> k' = k \/ k' ∈ d.*1.
Proof.
  induction d as [|[k1 v1] d IH]; simpl.
  - rewrite list_elem_of_singleton, elem_of_nil. tauto.
  - case_bool_decide; simpl; rewrite !elem_of_cons; [subst; tauto|].
    rewrite IH. tauto.
Qed.

Lemma OrderedDict_fn_foldl {V} (f : string -> V) (ks : list string) acc :
  (forall x, x ∈ acc -> x.2 = f x.1) ->
  let d := foldl (fun d kv => od_set kv.1 kv.2 d) acc ((fun k => (k, f k)) <$> ks) in
  (forall x, x ∈ d -> x.2 = f x.1) /\
  (forall k, k ∈ d.*1 <-> k ∈ acc.*1 \/ k ∈ ks).
Proof.
  revert acc. induction ks as [|k ks IH]; intros acc Hacc; simpl.
  - split; [exact Hacc|]. intros k. rewrite elem_of_nil. tauto.
  - destruct (IH (od_set k (f k) acc)) as [H1 H2].
    + intros x Hx. destruct (od_set_elem_of _ _ _ _ Hx) as [->|H]; [reflexivity|auto].
    + split; [exact H1|]. intros k'. rewrite H2, od_set_key, elem_of_cons. tauto.
Qed.

Lemma OrderedDict_fn_elem_of {V} (f : string -> V) (ks : list string) (k : string) :
  k ∈ ks -> (k, f k) ∈ OrderedDict ((fun k => (k, f k)) <$> ks).
Proof.
  intros Hk. unfold OrderedDict.
  destruct (OrderedDict_fn_foldl f ks []) as [H1 H2].
  { intros x Hx. by apply elem_of_nil in Hx. }
  assert (Hin : k ∈ (foldl (fun d kv => od_set kv.1 kv.2 d) []
                        ((fun k => (k, f k)) <$> ks)).*1) by (apply H2; auto).
  apply list_elem_of_fmap in Hin as ([k' v] & -> & Hin). simpl.
  specialize (H1 _ Hin). simpl in H1. by subst.
Qed.


(** ** Assembly of the encoder *)

Section EncoderAssembly.
Import StridedConvEncoder.
Variable fns : gmap string (option callable).

Lemma add_layer_Ok in_ch out_ch acc name r :
  add_layer fns in_ch out_ch acc name = Ok r <->
  layer_ok fns in_ch name /\ r = acc ++ [(name, layer_of fns in_ch out_ch name)].
Proof.
  unfold add_layer, layer_ok, layer_of, floordiv, dict_getitem.
  case_bool_decide as Hn; [case_bool_decide as Hz|];
    destruct (fns !! name) as [f|] eqn:Hf; simpl; split.
  all: try (intros [= <-]); try discriminate.
  all: try (intros [[[? [=]] ?] ?]; fail).
  all: try (intros [[_ Hc] _]; by destruct (Hc Hn)).
  all: try (intros [_ ->]; reflexivity).
  all: split; [split; [eauto | done] | done].
Qed.

Lemma add_layer_Raise in_ch out_ch acc name e :
  add_layer fns in_ch out_ch acc name = Raise e ->
  (e = ZeroDivisionError /\ name = "conv" /\ in_ch = 0) \/
  (e = KeyError name /\ fns !! name = None).
Proof.
  unfold add_layer, floordiv, dict_getitem.
  case_bool_decide as Hn; [case_bool_decide as Hz|];
    destruct (fns !! name) as [f|] eqn:Hf; simpl; intros [= <-]; auto.
Qed.

Lemma add_layers_Ok in_ch out_ch layer_order : forall acc r,
  for_each (add_layer fns in_ch out_ch) acc layer_order = Ok r <->
  Forall (layer_ok fns in_ch) layer_order /\
  r = acc ++ ((fun name => (name, layer_of fns in_ch out_ch name)) <$> layer_order).
Proof.
  induction layer_order as [|name rest IH]; intros acc r; simpl.
  - rewrite app_nil_r. split; [intros [= <-]; auto | intros [_ ->]; reflexivity].
  - rewrite Forall_cons. split.
    + intros H. apply bind_Ok_inv in H as (acc' & H1 & H2).
      apply add_layer_Ok in H1 as [Hok ->]. apply IH in H2 as [Hrest ->].
      rewrite <- app_assoc. auto.
    + intros [[Hok Hrest] ->].
      assert (H1 : add_layer fns in_ch out_ch acc name
                   = Ok (acc ++ [(name, layer_of fns in_ch out_ch name)]))
        by (apply add_layer_Ok; auto).
      rewrite H1. simpl. apply IH. rewrite <- app_assoc. auto.
Qed.

Lemma add_layers_Raise in_ch out_ch layer_order : forall acc e,
  for_each (add_layer fns in_ch out_ch) acc layer_order = Raise e ->
  (e = ZeroDivisionError /\ "conv" ∈ layer_order /\ in_ch = 0) \/
  (exists bad, e = KeyError bad /\ bad ∈ layer_order /\ fns !! bad = None).
Proof.
  induction layer_order as [|name rest IH]; intros acc e; simpl; [discriminate|].
  intros H. apply bind_Raise_inv in H as [H|(acc' & _ & H)].
  - apply add_layer_Raise in H as [(-> & -> & ->)|[-> Hf]].
    + left. split_and!; [done | left | done].
    + right. exists name. split_and!; [done | left | done].
  - apply IH in H as [(-> & Hc & ->)|(bad & -> & Hb & Hf)].
    + left. split_and!; [done | by right | done].
    + right. exists bad. split_and!; [done | by right | done].
Qed.

Lemma add_block_Ok layer_order residual net i pair r :
  add_block fns layer_order residual net (i, pair) = Ok r <->
  Forall (layer_ok fns pair.1) layer_order /\
  r = net ++ [("block_" +:+ pretty i, block_of fns layer_order residual pair)].
Proof.
  destruct pair as [in_ch out_ch]. unfold add_block. simpl. split.
  - intros H. apply bind_Ok_inv in H as (bl & H1 & H2).
    apply add_layers_Ok in H1 as [Hok ->]. simpl in H2.
    split; [exact Hok|]. injection H2 as <-. reflexivity.
  - intros [Hok ->].
    assert (H1 : for_each (add_layer fns in_ch out_ch) [] layer_order
                 = Ok ((fun name => (name, layer_of fns in_ch out_ch name)) <$> layer_order))
      by (apply add_layers_Ok; auto).
    rewrite H1. reflexivity.
Qed.

Lemma add_block_Raise layer_order residual net i pair e :
  add_block fns layer_order residual net (i, pair) = Raise e ->
  (e = ZeroDivisionError /\ "conv" ∈ layer_order /\ pair.1 = 0) \/
  (exists bad, e = KeyError bad /\ bad ∈ layer_order /\ fns !! bad = None).
Proof.
  destruct pair as [in_ch out_ch]. unfold add_block. simpl. intros H.
  apply bind_Raise_inv in H as [H|(bl & _ & [=])].
  by apply add_layers_Raise in H.
Qed.

Lemma add_blocks_Ok layer_order residual channels : forall start net r,
  for_each (add_block fns layer_order residual) net (enumerate start channels) = Ok r <->
  Forall (fun pair => Forall (layer_ok fns pair.1) layer_order) channels /\
  r = net ++ blocks_of fns layer_order residual start channels.
Proof.
  induction channels as [|pair rest IH]; intros start net r.
  - simpl. rewrite app_nil_r. split; [intros [= <-]; auto | intros [_ ->]; reflexivity].
  - rewrite enumerate_cons, Forall_cons, for_each_cons.
    assert (Hb : blocks_of fns layer_order residual start (pair :: rest)
                 = ("block_" +:+ pretty start, block_of fns layer_order residual pair)
                     :: blocks_of fns layer_order residual (S start) rest).
    { unfold blocks_of. simpl. rewrite Nat.add_0_r. f_equal.
      apply imap_ext. intros k p _. simpl. by rewrite Nat.add_succ_r. }
    rewrite Hb. split.
    + intros H. apply bind_Ok_inv in H as (net' & H1 & H2).
      apply add_block_Ok in H1 as [Hok ->]. apply IH in H2 as [Hrest ->].
      rewrite <- app_assoc. auto.
    + intros [[Hok Hrest] ->].
      assert (H1 : add_block fns layer_order residual net (start, pair)
                   = Ok (net ++ [("block_" +:+ pretty start,
                                  block_of fns layer_order residual pair)]))
        by (apply add_block_Ok; auto).
      rewrite H1. simpl. apply IH. rewrite <- app_assoc. auto.
Qed.

Lemma add_blocks_Raise layer_order residual channels : forall start net e,
  for_each (add_block fns layer_order residual) net (enumerate start channels) = Raise e ->
  (e = ZeroDivisionError /\ "conv" ∈ layer_order /\ exists pair, pair ∈ channels /\ pair.1 = 0) \/
  (exists bad, e = KeyError bad /\ bad ∈ layer_order /\ fns !! bad = None).
Proof.
  induction channels as [|pair rest IH]; intros start net e; [discriminate|].
  rewrite enumerate_cons, for_each_cons. intros H.
  apply bind_Raise_inv in H as [H|(net' & _ & H)].
  - apply add_block_Raise in H as [(-> & Hc & Hz)|Hbad]; [left|by right].
    split_and!; [done..|]. exists pair. split; [left | done].
  - apply IH in H as [(-> & Hc & p & Hp & Hz)|Hbad]; [left|by right].
    split_and!; [done..|]. exists p. split; [by right | done].
Qed.
End EncoderAssembly.

Section EncoderInit.
Import StridedConvEncoder.
Variables (conv : callable) (norm : option callable) (activation : callable).

Lemma name2fn_conv : dict_getitem (name2fn conv norm activation) "conv" = Ok (Some conv).
Proof. reflexivity. Qed.

Lemma name2fn_activation :
  dict_getitem (name2fn conv norm activation) "activation" = Ok (Some activation).
Proof. reflexivity. Qed.

Lemma name2fn_lookup_None name :
  name2fn conv norm activation !! name = None <->
  name ∉ ["activation"; "conv"; "norm"].
Proof.
  unfold name2fn. rewrite !lookup_insert_None, lookup_singleton_None.
  rewrite !not_elem_of_cons, elem_of_nil. intuition congruence.
Qed.

Lemma name2fn_is_Some name :
  is_Some (name2fn conv norm activation !! name) <->
  name ∈ ["activation"; "conv"; "norm"].
Proof.
  rewrite <- not_eq_None_Some, name2fn_lookup_None.
  destruct (decide (name ∈ ["activation"; "conv"; "norm"])); tauto.
Qed.

Lemma block_names_NoDup (b0 : nn_Module)
    fns layer_order residual channels :
  NoDup ((("block_0", b0) :: blocks_of fns layer_order residual 1 channels).*1).
Proof.
  assert (Hk : (("block_0", b0) :: blocks_of fns layer_order residual 1 channels).*1
               = (fun i : nat => "block_" +:+ pretty i) <$> seq 0 (S (length channels))).
  { simpl. f_equal. unfold blocks_of. rewrite fmap_imap.
    rewrite <- (imap_seq channels (fun i : nat => "block_" +:+ pretty i) 1).
    apply imap_ext. reflexivity. }
  rewrite Hk. apply NoDup_fmap_2; [|apply NoDup_seq].
  intros i j Hij. apply (inj (String.append "block_")) in Hij.
  by apply (inj pretty) in Hij.
Qed.

Lemma encoder_init_Ok layers layer_order residual self :
  __init__ layers layer_order conv norm activation residual = Ok self <->
  exists l0 l1 rest,
    layers = l0 :: l1 :: rest /\
    Forall (fun pair => Forall (layer_ok (name2fn conv norm activation) pair.1) layer_order)
           (pairwise (l1 :: rest)) /\
    self = {| _layers := layers;
              net := Sequential
                       (("block_0", stem conv activation l0 l1)
                          :: blocks_of (name2fn conv norm activation) layer_order
                               residual 1 (pairwise (l1 :: rest))) |}.
Proof.
  unfold __init__. rewrite name2fn_conv, name2fn_activation.
  destruct layers as [|l0 [|l1 rest]].
  - split; [discriminate|]. intros (? & ? & ? & [=] & _).
  - split; [discriminate|]. intros (? & ? & ? & [=] & _).
  - change (getitem (l0 :: l1 :: rest) 0) with (Ok l0).
    change (getitem (l0 :: l1 :: rest) 1) with (Ok l1).
    cbn [mbind result_bind call mret result_ret].
    change (OrderedDict [("conv_0", Call conv [l0; l1] []); ("act", Call activation [] [])])
      with [("conv_0", Call conv [l0; l1] []); ("act", Call activation [] [])].
    change (slice_from_1 (l0 :: l1 :: rest)) with (l1 :: rest).
    unfold Sequential_dict. fold (stem conv activation l0 l1). split.
    + intros H. apply bind_Ok_inv in H as (net' & H1 & H2).
      apply add_blocks_Ok in H1 as [Hok ->]. injection H2 as <-.
      exists l0, l1, rest. split_and!; [done..|].
      change ([("block_0", stem conv activation l0 l1)] ++ ?b)
        with (("block_0", stem conv activation l0 l1) :: b).
      by rewrite OrderedDict_NoDup by apply block_names_NoDup.
    + intros (? & ? & ? & [= <- <- <-] & Hok & ->).
      assert (H1 : for_each (add_block (name2fn conv norm activation) layer_order residual)
                     [("block_0", stem conv activation l0 l1)]
                     (enumerate 1 (pairwise (l1 :: rest)))
                   = Ok ([("block_0", stem conv activation l0 l1)]
                           ++ blocks_of (name2fn conv norm activation) layer_order
                                residual 1 (pairwise (l1 :: rest))))
        by (apply add_blocks_Ok; auto).
      rewrite H1. cbn [mbind result_bind mret result_ret].
      change ([("block_0", stem conv activation l0 l1)] ++ ?b)
        with (("block_0", stem conv activation l0 l1) :: b).
      by rewrite OrderedDict_NoDup by apply block_names_NoDup.
Qed.

(** What construction may raise. *)
Lemma encoder_init_Raise layers layer_order residual e :
  __init__ layers layer_order conv norm activation residual = Raise e ->
  (e = IndexError /\ (length layers < 2)%nat) \/
  (e = ZeroDivisionError /\ "conv" ∈ layer_order /\
     exists pair, pair ∈ pairwise (slice_from_1 layers) /\ pair.1 = 0) \/
  (exists bad, e = KeyError bad /\ bad ∈ layer_order /\
     name2fn conv norm activation !! bad = None /\ (3 <= length layers)%nat).
Proof.
  unfold __init__. rewrite name2fn_conv, name2fn_activation.
  destruct layers as [|l0 [|l1 rest]].
  - intros [= <-]. left. simpl. split; [done | lia].
  - intros [= <-]. left. simpl. split; [done | lia].
  - change (getitem (l0 :: l1 :: rest) 0) with (Ok l0).
    change (getitem (l0 :: l1 :: rest) 1) with (Ok l1).
    cbn [mbind result_bind call mret result_ret]. intros H.
    apply bind_Raise_inv in H as [H|(net' & _ & [=])].
    pose proof H as H'.
    apply add_blocks_Raise in H' as [H'|(bad & -> & Hb & Hf)]; right; [by left|right].
    exists bad. split_and!; [done..|].
    destruct rest; simpl; [discriminate | lia].
Qed.
End EncoderInit.

(** ** Assembly of the head *)

Lemma pairwise_snoc {A} (x : A) (xs : list A) (y : A) :
  pairwise ((x :: xs) ++ [y]) = pairwise (x :: xs) ++ [(default x (last xs), y)].
Proof.
  revert x. induction xs as [|x' xs IH]; intros x; [reflexivity|].
  change (pairwise ((x :: x' :: xs) ++ [y])) with ((x, x') :: pairwise ((x' :: xs) ++ [y])).
  rewrite IH, pairwise_cons2, last_cons. simpl. do 3 f_equal.
  by destruct (last xs).
Qed.

Lemma slice_to_last_snoc {A} (l : list A) (x : A) : slice_to_last (l ++ [x]) = l.
Proof.
  unfold slice_to_last. rewrite length_app. simpl.
  replace (length l + 1 - 1)%nat with (length l) by lia. by rewrite take_app_length.
Qed.

Lemma getitem_last_snoc {A} (l : list A) (x : A) : getitem (l ++ [x]) (-1) = Ok x.
Proof. by rewrite getitem_last, last_snoc. Qed.

Section HeadAssembly.
Import LinearHead.
Variable fns : gmap string (option callable).

Lemma head_add_layer_Ok in_ch out_ch acc name r :
  add_layer fns in_ch out_ch acc name = Ok r <->
  is_Some (fns !! name) /\
  r = acc ++ [create_layer name (default None (fns !! name)) in_ch out_ch []].
Proof.
  unfold add_layer, dict_getitem. destruct (fns !! name) as [f|]; simpl; split.
  - intros [= <-]. eauto.
  - by intros [_ ->].
  - discriminate.
  - by intros [[? [=]] _].
Qed.

Lemma layers_of_cons name rest pair :
  layers_of fns (name :: rest) pair
  = create_layer name (default None (fns !! name)) pair.1 pair.2 []
      :: layers_of fns rest pair.
Proof. reflexivity. Qed.

Lemma head_add_layers_Ok pair layer_order : forall acc r,
  for_each (add_layer fns pair.1 pair.2) acc layer_order = Ok r <->
  Forall (fun name => is_Some (fns !! name)) layer_order /\
  r = acc ++ layers_of fns layer_order pair.
Proof.
  induction layer_order as [|name rest IH]; intros acc r.
  - unfold layers_of. simpl. rewrite app_nil_r.
    split; [intros [= <-]; auto | intros [_ ->]; reflexivity].
  - rewrite Forall_cons, layers_of_cons, for_each_cons. split.
    + intros H. apply bind_Ok_inv in H as (acc' & H1 & H2).
      apply head_add_layer_Ok in H1 as [Hok ->]. apply IH in H2 as [Hrest ->].
      rewrite <- app_assoc. auto.
    + intros [[Hok Hrest] ->].
      assert (H1 : add_layer fns pair.1 pair.2 acc name
                   = Ok (acc ++ [create_layer name (default None (fns !! name))
                                   pair.1 pair.2 []]))
        by (apply head_add_layer_Ok; auto).
      rewrite H1. simpl. apply IH. rewrite <- app_assoc. auto.
Qed.

Lemma head_add_layers_Raise pair layer_order : forall acc e,
  for_each (add_layer fns pair.1 pair.2) acc layer_order = Raise e ->
  exists bad, e = KeyError bad /\ bad ∈ layer_order /\ fns !! bad = None.
Proof.
  induction layer_order as [|name rest IH]; intros acc e; simpl; [discriminate|].
  intros H. apply bind_Raise_inv in H as [H|(acc' & _ & H)].
  - unfold add_layer, dict_getitem in H.
    destruct (fns !! name) eqn:Hf; simpl in H; [discriminate|].
    injection H as <-. exists name. split_and!; [done | left | done].
  - apply IH in H as (bad & -> & Hb & Hf).
    exists bad. split_and!; [done | by right | done].
Qed.

Lemma head_add_pairs_Ok layer_order pairs : forall acc r,
  for_each (add_pair fns layer_order) acc pairs = Ok r <->
  (pairs = [] \/ Forall (fun name => is_Some (fns !! name)) layer_order) /\
  r = acc ++ (pairs ≫= layers_of fns layer_order).
Proof.
  induction pairs as [|pair rest IH]; intros acc r.
  - simpl. rewrite app_nil_r. split; [intros [= <-]; auto | intros [_ ->]; reflexivity].
  - rewrite for_each_cons, bind_cons.
    change (add_pair fns layer_order acc pair)
      with (for_each (add_layer fns pair.1 pair.2) acc layer_order).
    split.
    + intros H. apply bind_Ok_inv in H as (acc' & H1 & H2).
      apply head_add_layers_Ok in H1 as [Hok ->]. apply IH in H2 as [_ ->].
      rewrite <- app_assoc. auto.
    + intros [[[=]|Hok] ->].
      assert (H1 : for_each (add_layer fns pair.1 pair.2) acc layer_order
                   = Ok (acc ++ layers_of fns layer_order pair))
        by (apply head_add_layers_Ok; auto).
      rewrite H1. simpl. apply IH. rewrite <- app_assoc. auto.
Qed.

Lemma head_add_pairs_Raise layer_order pairs : forall acc e,
  for_each (add_pair fns layer_order) acc pairs = Raise e ->
  exists bad, e = KeyError bad /\ bad ∈ layer_order /\ fns !! bad = None.
Proof.
  induction pairs as [|pair rest IH]; intros acc e; [discriminate|].
  rewrite for_each_cons.
  change (add_pair fns layer_order acc pair)
    with (for_each (add_layer fns pair.1 pair.2) acc layer_order).
  intros H.
  apply bind_Raise_inv in H as [H|(acc' & _ & H)].
  - by apply head_add_layers_Raise in H.
  - by apply IH in H.
Qed.
End HeadAssembly.

Section HeadInit.
Import LinearHead.
Variables (linear activation : callable) (norm dropout : option callable).

Lemma head_name2fn_linear :
  dict_getitem (name2fn linear activation norm dropout) "linear" = Ok (Some linear).
Proof. reflexivity. Qed.

Lemma head_name2fn_lookup_None name :
  name2fn linear activation norm dropout !! name = None <->
  name ∉ ["activation"; "dropout"; "linear"; "norm"].
Proof.
  unfold name2fn. rewrite !lookup_insert_None, lookup_singleton_None.
  rewrite !not_elem_of_cons, elem_of_nil. intuition congruence.
Qed.

Lemma head_name2fn_is_Some name :
  is_Some (name2fn linear activation norm dropout !! name) <->
  name ∈ ["activation"; "dropout"; "linear"; "norm"].
Proof.
  rewrite <- not_eq_None_Some, head_name2fn_lookup_None.
  destruct (decide (name ∈ ["activation"; "dropout"; "linear"; "norm"])); tauto.
Qed.

Lemma pairwise_nil_iff {A} (x : A) xs : pairwise (x :: xs) = [] <-> xs = [].
Proof. destruct xs; split; (reflexivity || discriminate). Qed.

Lemma head_init_Ok in_channels out_channels latent_channels layer_order self :
  __init__ in_channels out_channels latent_channels layer_order
    linear activation norm dropout = Ok self <->
  (default [] latent_channels = [] \/
   Forall (fun name => is_Some (name2fn linear activation norm dropout !! name))
          layer_order) /\
  self = {| net := Sequential_args
              ((pairwise (in_channels :: default [] latent_channels)
                  ≫= layers_of (name2fn linear activation norm dropout) layer_order)
               ++ [Call linear [default in_channels (last (default [] latent_channels));
                                out_channels] []]) |}.
Proof.
  unfold __init__. set (latent := default [] latent_channels).
  change (in_channels :: latent ++ [out_channels])
    with ((in_channels :: latent) ++ [out_channels]).
  rewrite pairwise_snoc, slice_to_last_snoc, getitem_last_snoc, head_name2fn_linear.
  rewrite <- (pairwise_nil_iff in_channels latent). split.
  - intros H. apply bind_Ok_inv in H as (body & H1 & H2).
    apply head_add_pairs_Ok in H1 as [Hok ->]. injection H2 as <-. auto.
  - intros [Hok ->].
    assert (H1 : for_each (add_pair (name2fn linear activation norm dropout) layer_order)
                   [] (pairwise (in_channels :: latent))
                 = Ok ([] ++ (pairwise (in_channels :: latent)
                          ≫= layers_of (name2fn linear activation norm dropout) layer_order)))
      by (apply head_add_pairs_Ok; auto).
    rewrite H1. reflexivity.
Qed.

Lemma head_init_Raise in_channels out_channels latent_channels layer_order e :
  __init__ in_channels out_channels latent_channels layer_order
    linear activation norm dropout = Raise e ->
  exists bad, e = KeyError bad /\ bad ∈ layer_order /\
    name2fn linear activation norm dropout !! bad = None /\
    default [] latent_channels ≠ [].
Proof.
  unfold __init__. set (latent := default [] latent_channels).
  change (in_channels :: latent ++ [out_channels])
    with ((in_channels :: latent) ++ [out_channels]).
  rewrite pairwise_snoc, slice_to_last_snoc, getitem_last_snoc, head_name2fn_linear.
  intros H. apply bind_Raise_inv in H as [H|(body & _ & [=])].
  pose proof H as H'. apply head_add_pairs_Raise in H' as (bad & -> & Hb & Hf).
  exists bad. split_and!; [done..|]. intros Hl. rewrite Hl in H. discriminate.
Qed.
End HeadInit.

Lemma modules_Sequential_args (l : list nn_Module) :
  LinearHead.modules {| LinearHead.net := Sequential_args l |} = l.
Proof.
  unfold LinearHead.modules, Sequential_args. simpl. rewrite fmap_imap.
  rewrite (imap_ext _ (const id) l) by reflexivity.
  by rewrite imap_const, list_fmap_id.
Qed.

Section HeadCount.
Import LinearHead.
Variables (linear activation : callable) (norm dropout : option callable).
Hypothesis activation_not_linear : activation ≠ linear.
Hypothesis norm_not_linear : norm ≠ Some linear.
Hypothesis dropout_not_linear : dropout ≠ Some linear.

Lemma made_by_create_layer name pair :
  is_Some (name2fn linear activation norm dropout !! name) ->
  made_by linear
    (create_layer name (default None (name2fn linear activation norm dropout !! name))
       pair.1 pair.2 [])
  = bool_decide (name = "linear").
Proof.
  rewrite head_name2fn_is_Some, !elem_of_cons, elem_of_nil.
  intros [->|[->|[->|[->|[]]]]].
  - change (name2fn linear activation norm dropout !! "activation")
      with (Some (Some activation)).
    simpl. by apply bool_decide_eq_false_2.
  - change (name2fn linear activation norm dropout !! "dropout") with (Some dropout).
    destruct dropout as [f|]; simpl; [|reflexivity].
    apply bool_decide_eq_false_2. congruence.
  - change (name2fn linear activation norm dropout !! "linear") with (Some (Some linear)).
    simpl. by apply bool_decide_eq_true_2.
  - change (name2fn linear activation norm dropout !! "norm") with (Some norm).
    destruct norm as [f|]; simpl; [|reflexivity].
    apply bool_decide_eq_false_2. congruence.
Qed.


End HeadCount.

(** ** The composite classifier *)

Lemma for_each_traced_cons {E A S} (body : S -> A -> traced E S) (acc : S) (x : A) (xs : list A) (tr : list E) :
  for_each_traced body acc (x :: xs) tr
  = match body acc x tr with
    | (Ok acc', tr') => for_each_traced body acc' xs tr'
    | (Raise e, tr') => (Raise e, tr')
    end.
Proof. reflexivity. Qed.

Section Classifier.
Import VGGConv.
Context {scalar : Type}.
Implicit Types (x : @Tensor scalar) (self : @t scalar).

Lemma numel_app l1 l2 : numel (l1 ++ l2) = numel l1 * numel l2.
Proof.
  unfold numel. induction l1 as [|d l1 IH]; cbn [foldr app].
  - by rewrite Z.mul_1_l.
  - rewrite IH. ring.
Qed.

Lemma numel_cons d l : numel (d :: l) = d * numel l.
Proof. reflexivity. Qed.

Lemma numel_reverse l : numel (reverse l) = numel l.
Proof.
  induction l as [|d l IH]; [done|].
  rewrite reverse_cons, numel_app, IH, !numel_cons. cbn. ring.
Qed.

Lemma numel_pos_sizes l :
  Forall (fun d => 0 <= d) l -> numel l ≠ 0 -> Forall (fun d => 1 <= d) l.
Proof.
  induction 1 as [|d l Hd Hl IH]; [constructor|].
  rewrite numel_cons. intros Hn. constructor.
  - assert (d ≠ 0) by (intros ->; lia). lia.
  - apply IH. intros H0. rewrite H0 in Hn. lia.
Qed.

Lemma fmap_max_1 l : Forall (fun d => 1 <= d) l -> Z.max 1 <$> l = l.
Proof.
  induction 1 as [|d l Hd Hl IH]; [done|]. cbn. rewrite IH. f_equal. lia.
Qed.

Lemma contiguous_strides_length size : length (contiguous_strides size) = length size.
Proof. induction size; cbn; congruence. Qed.

Lemma contiguous_strides_last size :
  size ≠ [] -> last (contiguous_strides size) = Some 1.
Proof.
  induction size as [|d [|d' size] IH]; [done|done|]. intros _.
  change (contiguous_strides (d :: d' :: size))
    with (numel (Z.max 1 <$> d' :: size) :: contiguous_strides (d' :: size)).
  destruct (contiguous_strides (d' :: size)) eqn:Hc; [done|].
  rewrite last_cons_cons. by apply IH.
Qed.

Lemma row_major_app tn l1 l2 :
  row_major tn (l1 ++ l2) <-> row_major tn l1 /\ row_major (tn * numel l1.*1) l2.
Proof.
  revert tn. induction l1 as [|[s t] l1 IH]; intros tn.
  - cbn [app row_major]. change (numel ([] : list (Z * Z)).*1) with 1.
    rewrite Z.mul_1_r. tauto.
  - rewrite <- app_comm_cons, fmap_cons. cbn [row_major fst].
    rewrite numel_cons, IH, Z.mul_assoc. tauto.
Qed.

Lemma row_major_contiguous size :
  Forall (fun d => 1 <= d) size ->
  row_major 1 (reverse (zip size (contiguous_strides size))).
Proof.
  induction 1 as [|d size Hd Hsize IH]; [done|].
  cbn [contiguous_strides zip zip_with]. rewrite reverse_cons.
  apply row_major_app. split; [done|]. cbn. split; [|done].
  rewrite fmap_reverse, numel_reverse, fmap_max_1 by done.
  rewrite fst_zip by (rewrite contiguous_strides_length; lia). lia.
Qed.

Lemma chunks_row_major rold : forall tn rnew acc,
  rold ≠ [] -> row_major tn rold ->
  chunks rold 1 tn 1 rnew acc
  = let '(view_numel, rnew', acc') :=
      view_chunk 1 (tn * numel rold.*1) 1 rnew acc in
    if bool_decide (view_numel = tn * numel rold.*1)
    then all_viewed rnew' acc' else None.
Proof.
  induction rold as [|[size stride] rold IH]; intros tn rnew acc Hne Hrm; [done|].
  cbn [chunks]. destruct rold as [|[size' stride'] rold'].
  - cbn. by rewrite Z.mul_1_r.
  - destruct Hrm as [-> Hrm]. pose proof Hrm as [-> _].
    rewrite bool_decide_eq_false_2 by lia.
    rewrite (IH _ _ _ ltac:(done) Hrm).
    replace (tn * numel ((size, tn) :: (size', tn * size) :: rold').*1)
      with (tn * size * numel ((size', tn * size) :: rold').*1); [done|].
    cbn [fmap list_fmap fst]. rewrite !numel_cons. ring.
Qed.

(** A tensor with the default strides and a non-empty first axis can be
    viewed as [(d0, -1)], and the view has the default strides again. *)
Lemma compute_stride_contiguous d0 rest :
  0 < d0 -> Forall (fun d => 0 <= d) rest ->
  compute_stride (d0 :: rest) (contiguous_strides (d0 :: rest)) [d0; numel rest]
  = Some (contiguous_strides [d0; numel rest]).
Proof.
  intros Hd Hrest. unfold compute_stride.
  rewrite bool_decide_eq_false_2 by done.
  case_bool_decide as Hz.
  { case_bool_decide as Heq; [|done]. by rewrite Heq at 1. }
  rewrite numel_cons in Hz.
  assert (numel rest ≠ 0) as Hn by (intros H0; rewrite H0 in Hz; lia).
  pose proof (numel_pos_sizes _ Hrest Hn) as Hpos.
  assert (1 <= numel rest) as Hn1.
  { clear -Hpos. induction Hpos; [done|]. rewrite numel_cons. nia. }
  rewrite contiguous_strides_last by done. cbn [default].
  rewrite chunks_row_major;
    [|cbn [contiguous_strides zip zip_with]; rewrite reverse_cons;
      intros Hnil; by apply app_nil in Hnil as [_ ?]
     |by apply row_major_contiguous; constructor; [lia|]].
  rewrite fmap_reverse, numel_reverse.
  rewrite fst_zip by (rewrite contiguous_strides_length; lia).
  change (reverse [d0; numel rest]) with [numel rest; d0].
  rewrite numel_cons.
  cbn [view_chunk].
  rewrite (bool_decide_eq_true_2 (1 < _ ∨ numel rest = 1)) by nia.
  rewrite (bool_decide_eq_true_2 (1 * numel rest < _ ∨ d0 = 1)) by nia.
  rewrite bool_decide_eq_true_2 by lia.
  cbn. do 2 f_equal. lia.
Qed.

Lemma view_chunk_flat d0 n base tensor_numel rnew acc view_numel rnew' acc' :
  0 < d0 ->
  flat_state d0 n rnew acc ->
  view_chunk base tensor_numel 1 rnew acc = (view_numel, rnew', acc') ->
  view_numel = tensor_numel ->
  flat_state d0 n rnew' acc'.
Proof.
  intros Hd Hst Hv Hn. destruct Hst as [|t1 Hd1 Hn1|t0 t1 Hn1 Ht]; cbn in Hv.
  - destruct (bool_decide (1 < tensor_numel ∨ n = 1)) eqn:H1.
    + apply bool_decide_eq_true in H1.
      destruct (bool_decide (1 * n < tensor_numel ∨ d0 = 1)) eqn:H2.
      * apply bool_decide_eq_true in H2. injection Hv as <- <- <-.
        apply flat_both; [nia|]. intros _. ring.
      * apply bool_decide_eq_false in H2. injection Hv as <- <- <-.
        apply flat_last; [tauto|lia].
    + injection Hv as <- <- <-. constructor.
  - destruct (bool_decide (1 < tensor_numel ∨ d0 = 1)) eqn:H1.
    + injection Hv as <- <- <-. apply flat_both; [done|]. intros; contradiction.
    + injection Hv as <- <- <-. by apply flat_last.
  - injection Hv as <- <- <-. by apply flat_both.
Qed.

Lemma all_viewed_flat d0 n rnew acc st :
  flat_state d0 n rnew acc -> all_viewed rnew acc = Some st ->
  exists t0 t1, st = [t0; t1] /\ 1 <= n /\ (d0 = 1 -> t0 = n * t1).
Proof.
  intros Hst Hv. destruct Hst; cbn in Hv; try discriminate.
  injection Hv as <-. eauto.
Qed.

Lemma chunks_flat d0 n rold : forall base tensor_numel rnew acc st,
  0 < d0 ->
  flat_state d0 n rnew acc ->
  chunks rold base tensor_numel 1 rnew acc = Some st ->
  exists t0 t1, st = [t0; t1] /\ 1 <= n /\ (d0 = 1 -> t0 = n * t1).
Proof.
  induction rold as [|[size stride] rold IH]; intros base tn rnew acc st Hd Hst Hc.
  - cbn in Hc. by eapply all_viewed_flat.
  - cbn [chunks] in Hc. destruct rold as [|[size' stride'] rold'].
    + destruct (view_chunk base (tn * size) 1 rnew acc) as [[vn rnew'] acc'] eqn:Hv.
      case_bool_decide as Hn; [|discriminate].
      eapply all_viewed_flat; [|exact Hc]. by eapply view_chunk_flat.
    + case_bool_decide as Hend.
      * destruct (view_chunk base (tn * size) 1 rnew acc) as [[vn rnew'] acc'] eqn:Hv.
        case_bool_decide as Hn; [|discriminate].
        eapply IH; [done| |exact Hc]. by eapply view_chunk_flat.
      * by eapply IH.
Qed.

Lemma compute_stride_flat_again d0 n t0 t1 :
  0 < d0 -> 1 <= n -> (d0 = 1 -> t0 = n * t1) ->
  compute_stride [d0; n] [t0; t1] [d0; n] = Some [t0; t1].
Proof.
  intros Hd Hn Ht. unfold compute_stride.
  rewrite bool_decide_eq_false_2 by done.
  rewrite bool_decide_eq_false_2 by (cbn; nia).
  change (reverse (zip [d0; n] [t0; t1])) with [(n, t1); (d0, t0)].
  change (reverse [d0; n]) with [n; d0].
  change (default 0 (last [t0; t1])) with t1.
  cbn [chunks].
  case_bool_decide as Hend.
  - cbn [view_chunk].
    rewrite (bool_decide_eq_true_2 (1 < 1 * n ∨ n = 1)) by lia.
    rewrite (bool_decide_eq_false_2 (1 * n < 1 * n ∨ d0 = 1)) by lia.
    rewrite bool_decide_eq_true_2 by lia.
    cbn [chunks view_chunk].
    rewrite (bool_decide_eq_true_2 (1 < 1 * d0 ∨ d0 = 1)) by lia.
    rewrite bool_decide_eq_true_2 by lia.
    cbn. by rewrite !Z.mul_1_l.
  - cbn [view_chunk].
    rewrite (bool_decide_eq_true_2 (1 < 1 * n * d0 ∨ n = 1)) by nia.
    rewrite (bool_decide_eq_true_2 (1 * n < 1 * n * d0 ∨ d0 = 1)) by nia.
    rewrite bool_decide_eq_true_2 by lia.
    cbn. rewrite !Z.mul_1_l. do 2 f_equal.
    apply not_and_l in Hend as [Hend|Hend].
    + apply dec_stable in Hend. by rewrite Ht.
    + apply dec_stable in Hend. lia.
Qed.

(** Viewing the result of [view(d0, -1)] as [(d0, -1)] again changes nothing. *)
Lemma compute_stride_flat_idem oldshape oldstride d0 n st :
  0 < d0 -> numel oldshape = d0 * n ->
  compute_stride oldshape oldstride [d0; n] = Some st ->
  compute_stride [d0; n] st [d0; n] = Some st.
Proof.
  intros Hd Hnum Hc. unfold compute_stride in Hc.
  case_bool_decide as Hnil.
  { subst oldshape. cbn in Hnum, Hc. injection Hc as <-.
    apply compute_stride_flat_again; [done|nia|lia]. }
  case_bool_decide as Hz.
  { assert (n = 0) as -> by nia.
    unfold compute_stride. rewrite bool_decide_eq_false_2 by done.
    rewrite bool_decide_eq_true_2 by (cbn; lia).
    by rewrite bool_decide_eq_true_2. }
  change (reverse [d0; n]) with [n; d0] in Hc.
  eapply chunks_flat in Hc as (t0 & t1 & -> & Hn & Ht); [|done|constructor].
  by apply compute_stride_flat_again.
Qed.

Lemma infer_size_flatten (d0 n : Z) :
  0 < d0 -> infer_size [d0; -1] (d0 * n) = Ok [d0; n].
Proof.
  intros Hd.
  assert (Hn : numel (filter (fun d => d ≠ -1) [d0; -1]) = d0).
  { rewrite !filter_cons, filter_nil.
    rewrite (decide_True (P := d0 ≠ -1)) by lia.
    rewrite (decide_False (P := -1 ≠ -1)) by lia.
    unfold numel. simpl. lia. }
  assert (Hc : length (filter (fun d => d = -1) [d0; -1]) = 1%nat).
  { rewrite !filter_cons, filter_nil.
    rewrite (decide_False (P := d0 = -1)) by lia.
    by rewrite (decide_True (P := -1 = -1)) by lia. }
  unfold infer_size. cbv zeta. rewrite Hn, Hc.
  rewrite bool_decide_eq_false_2.
  2:{ rewrite !Exists_cons, Exists_nil. lia. }
  rewrite (bool_decide_eq_false_2 (1 < 1)%nat) by lia.
  rewrite (bool_decide_eq_true_2 (-1 ∈ [d0; -1])) by (right; left).
  rewrite bool_decide_eq_true_2.
  2:{ right. split_and!; [done | lia |]. rewrite Z.mul_comm. apply Z_mod_mult. }
  rewrite (bool_decide_eq_false_2 (d0 = 0)) by lia. simpl.
  rewrite (bool_decide_eq_false_2 (d0 = -1)) by lia.
  rewrite Z.mul_comm, Z.div_mul by lia. reflexivity.
Qed.

(** Line 228 on a tensor with a non-empty first axis: the sizes are
    inferred, the strides decide. *)
Lemma flatten_nonempty x d0 rest :
  shape x = d0 :: rest -> 0 < d0 ->
  flatten x
  = match compute_stride (d0 :: rest) (stride x) [d0; numel rest] with
    | Some stride' =>
        Ok {| shape := [d0; numel rest]; stride := stride'; data := data x |}
    | None => Raise RuntimeError
    end.
Proof.
  intros Hs Hd. unfold flatten, view. rewrite Hs.
  change (getitem (d0 :: rest) 0) with (Ok d0). cbn [mbind result_bind].
  by rewrite numel_cons, infer_size_flatten.
Qed.

Lemma flatten_contiguous x d0 rest :
  shape x = d0 :: rest -> 0 < d0 -> Forall (fun d => 0 <= d) rest ->
  contiguous x ->
  flatten x = Ok (dense [d0; numel rest] (data x)).
Proof.
  intros Hs Hd Hrest Hc. rewrite (flatten_nonempty x d0 rest Hs Hd).
  unfold contiguous in Hc. rewrite Hc, Hs.
  by rewrite compute_stride_contiguous.
Qed.

Lemma flatten_no_axes x : shape x = [] -> flatten x = Raise IndexError.
Proof. intros Hs. unfold flatten. by rewrite Hs. Qed.

Lemma infer_size_nonpositive_batch (d0 n : Z) :
  d0 <= 0 -> infer_size [d0; -1] (d0 * n) = Raise RuntimeError.
Proof.
  intros Hd. unfold infer_size. cbv zeta.
  destruct (decide (d0 < -1)) as [Hlt|Hge].
  { rewrite bool_decide_eq_true_2; [reflexivity|]. by left. }
  rewrite bool_decide_eq_false_2.
  2:{ rewrite !Exists_cons, Exists_nil. lia. }
  destruct (decide (d0 = -1)) as [->|Hne].
  { rewrite bool_decide_eq_true_2; [reflexivity|]. simpl. lia. }
  assert (d0 = 0) as -> by lia.
  rewrite bool_decide_eq_false_2 by (vm_compute; lia).
  change (numel (filter (fun d => d ≠ -1) [0; -1])) with 0.
  change (bool_decide (-1 ∈ [0; -1])) with true.
  rewrite bool_decide_eq_true_2 by (left; lia).
  reflexivity.
Qed.

Lemma flatten_nonpositive_batch x d0 rest :
  shape x = d0 :: rest -> d0 <= 0 -> flatten x = Raise RuntimeError.
Proof.
  intros Hs Hd. unfold flatten, view. rewrite Hs.
  change (getitem (d0 :: rest) 0) with (Ok d0). cbn [mbind result_bind].
  by rewrite numel_cons, infer_size_nonpositive_batch.
Qed.

(** The outcome of line 228 in full. *)
Lemma flatten_cases x :
  flatten x
  = match shape x with
    | [] => Raise IndexError
    | d0 :: rest =>
        if bool_decide (0 < d0) then
          match compute_stride (d0 :: rest) (stride x) [d0; numel rest] with
          | Some stride' =>
              Ok {| shape := [d0; numel rest]; stride := stride'; data := data x |}
          | None => Raise RuntimeError
          end
        else Raise RuntimeError
    end.
Proof.
  destruct (shape x) as [|d0 rest] eqn:Hs; [by apply flatten_no_axes|].
  case_bool_decide as Hd; [by apply flatten_nonempty|].
  apply (flatten_nonpositive_batch x d0 rest Hs). lia.
Qed.

Lemma flatten_Ok_inv x y :
  flatten x = Ok y ->
  exists d0 rest stride',
    shape x = d0 :: rest /\ 0 < d0 /\
    compute_stride (d0 :: rest) (stride x) [d0; numel rest] = Some stride' /\
    y = {| shape := [d0; numel rest]; stride := stride'; data := data x |}.
Proof.
  rewrite flatten_cases. destruct (shape x) as [|d0 rest]; [done|].
  case_bool_decide as Hd; [|done].
  destruct (compute_stride _ _ _) as [stride'|] eqn:Hc; [|done].
  intros [= <-]. by exists d0, rest, stride'.
Qed.

Lemma forward_result self x tr :
  (forward self x tr).1
  = (a ← encoder self x; b ← pool self a; c ← flatten b; head self c).
Proof.
  cbv [forward call_module flatten emit lift
       mbind traced_bind mret traced_ret result_bind result_ret].
  destruct (encoder self x) as [a|e]; [|reflexivity].
  destruct (pool self a) as [b|e]; [|reflexivity].
  destruct (getitem (shape b) 0) as [d0|e]; [|reflexivity].
  destruct (view b [d0; -1]) as [c|e]; [|reflexivity].
  destruct (head self c) as [y|e]; reflexivity.
Qed.

Lemma forward_trace self x tr :
  exists evs, (forward self x tr).2 = tr ++ evs /\ quiet evs.
Proof.
  cbv [forward call_module emit lift quiet
       mbind traced_bind mret traced_ret result_bind result_ret].
  destruct (encoder self x) as [a|e]; cbn [snd];
    [|eexists; split; [reflexivity | by repeat constructor]].
  destruct (pool self a) as [b|e]; cbn [snd];
    [|rewrite <- app_assoc; eexists; split; [reflexivity | by repeat constructor]].
  destruct (getitem (shape b) 0) as [d0|e]; cbn [snd];
    [|rewrite <- app_assoc; eexists; split; [reflexivity | by repeat constructor]].
  destruct (view b [d0; -1]) as [c|e]; cbn [snd];
    [|rewrite <- app_assoc; eexists; split; [reflexivity | by repeat constructor]].
  destruct (head self c) as [y|e]; cbn [snd]; rewrite <- !app_assoc;
    eexists; (split; [reflexivity | by repeat constructor]).
Qed.

Variable net_init_ : @t scalar -> @t scalar.

Lemma classifier_init_trace encoder pool head tr :
  __init__ net_init_ encoder pool head tr
  = (Ok (net_init_ {| encoder := encoder; pool := pool; head := head |}),
     tr ++ [NetInit {| encoder := encoder; pool := pool; head := head |}]).
Proof. reflexivity. Qed.

Lemma forwards_trace self xs : forall ys tr,
  exists evs,
    (for_each_traced (fun ys x => y ← forward self x; mret (ys ++ [y])) ys xs tr).2
    = tr ++ evs /\ quiet evs.
Proof.
  induction xs as [|x xs IH]; intros ys tr.
  - exists []. split; [by rewrite app_nil_r | constructor].
  - rewrite for_each_traced_cons.
    change ((y ← forward self x; mret (ys ++ [y])) tr)
      with (match forward self x tr with
            | (Ok y, tr') => (Ok (ys ++ [y]), tr')
            | (Raise e, tr') => (Raise e, tr')
            end).
    destruct (forward_trace self x tr) as (evs & Hevs & Hq).
    destruct (forward self x tr) as [[y|e] tr']; simpl in Hevs; subst tr'.
    + destruct (IH (ys ++ [y]) (tr ++ evs)) as (evs' & -> & Hq').
      exists (evs ++ evs'). split; [by rewrite app_assoc | by apply Forall_app].
    + exists evs. auto.
Qed.

Lemma session_trace encoder pool head xs :
  exists evs,
    (session net_init_ encoder pool head xs []).2
    = NetInit {| encoder := encoder; pool := pool; head := head |} :: evs /\
    quiet evs.
Proof.
  set (self0 := {| encoder := encoder; pool := pool; head := head |}).
  destruct (forwards_trace (net_init_ self0) xs [] [NetInit self0]) as (evs & H & Hq).
  exists evs. split; [exact H | exact Hq].
Qed.
End Classifier.

(** * The claims of the specification *)

(** C2: for every channel schedule the constructor accepts (it then has at
    least two entries), [in_channels] returns the first element of the
    schedule and [out_channels] the last. *)
Theorem encoder_in_out_channels layers layer_order conv norm activation residual self :
  StridedConvEncoder.__init__ layers layer_order conv norm activation residual = Ok self ->
  (2 <= length layers)%nat /\
  exists first_ch last_ch,
    head layers = Some first_ch /\ last layers = Some last_ch /\
    StridedConvEncoder.in_channels self = Ok first_ch /\
    StridedConvEncoder.out_channels self = Ok last_ch.
Proof.
  intros H. apply encoder_init_Ok in H as (l0 & l1 & rest & -> & _ & ->).
  split; [simpl; lia|].
  unfold StridedConvEncoder.in_channels, StridedConvEncoder.out_channels.
  cbn [StridedConvEncoder._layers]. rewrite getitem_0, getitem_last.
  destruct (last (l0 :: l1 :: rest)) as [b|] eqn:Hl.
  - exists l0, b. auto.
  - by apply last_None in Hl.
Qed.

Lemma encoder_in_out_channels_witness :
  exists self,
    StridedConvEncoder.__init__ StridedConvEncoder.default_layers
      StridedConvEncoder.default_layer_order StridedConvEncoder.default_conv
      StridedConvEncoder.default_norm StridedConvEncoder.default_activation
      StridedConvEncoder.default_residual = Ok self /\
    StridedConvEncoder.in_channels self = Ok 3 /\
    StridedConvEncoder.out_channels self = Ok 512.
Proof.
  destruct (StridedConvEncoder.__init__ StridedConvEncoder.default_layers
      StridedConvEncoder.default_layer_order StridedConvEncoder.default_conv
      StridedConvEncoder.default_norm StridedConvEncoder.default_activation
      StridedConvEncoder.default_residual) as [self|e] eqn:H;
    [|vm_compute in H; discriminate].
  exists self. split; [reflexivity|].
  destruct (encoder_in_out_channels _ _ _ _ _ _ _ H)
    as (_ & a & b & Ha & Hb & Hin & Hout).
  vm_compute in Ha, Hb. injection Ha as <-. injection Hb as <-. auto.
Defined.

(** C7: in every constructed encoder, whatever the layer order, block 0 is
    exactly a conv layer from [channel_schedule[0]] to [channel_schedule[1]],
    made with no keyword argument (so no stride), followed by an activation
    layer, and nothing else (no normalisation). *)
Theorem encoder_stem_block layers layer_order conv norm activation residual self :
  StridedConvEncoder.__init__ layers layer_order conv norm activation residual = Ok self ->
  exists l0 l1,
    layers !! 0%nat = Some l0 /\ layers !! 1%nat = Some l1 /\
    children (StridedConvEncoder.net self) !! 0%nat
    = Some ("block_0",
            Sequential [("conv_0", Call conv [l0; l1] []);
                        ("act", Call activation [] [])]).
Proof.
  intros H. apply encoder_init_Ok in H as (l0 & l1 & rest & -> & _ & ->).
  exists l0, l1. split_and!; reflexivity.
Qed.

Lemma encoder_stem_block_witness :
  exists self,
    StridedConvEncoder.__init__ [3; 64; 128] ["norm"; "conv"] "modules.Conv2d"
      (Some "nn.BatchNorm2d") "modules.LeakyReLU" None = Ok self /\
    children (StridedConvEncoder.net self) !! 0%nat
    = Some ("block_0",
            Sequential [("conv_0", Call "modules.Conv2d" [3; 64] []);
                        ("act", Call "modules.LeakyReLU" [] [])]).
Proof.
  destruct (StridedConvEncoder.__init__ [3; 64; 128] ["norm"; "conv"] "modules.Conv2d"
      (Some "nn.BatchNorm2d") "modules.LeakyReLU" None) as [self|e] eqn:H;
    [|vm_compute in H; discriminate].
  exists self. split; [reflexivity|].
  destruct (encoder_stem_block _ _ _ _ _ _ _ H) as (l0 & l1 & H0 & H1 & Hb).
  injection H0 as <-. injection H1 as <-. exact Hb.
Defined.

(** The block of the pair at index [i] (after the stem) in a constructed
    encoder. *)
Lemma encoder_block_lookup layers layer_order conv norm activation residual self i pair :
  StridedConvEncoder.__init__ layers layer_order conv norm activation residual = Ok self ->
  pairwise (slice_from_1 layers) !! i = Some pair ->
  Forall (StridedConvEncoder.layer_ok (StridedConvEncoder.name2fn conv norm activation) pair.1)
         layer_order /\
  children (StridedConvEncoder.net self) !! S i
  = Some ("block_" +:+ pretty (S i),
          StridedConvEncoder.block_of (StridedConvEncoder.name2fn conv norm activation)
            layer_order residual pair).
Proof.
  intros H Hp. apply encoder_init_Ok in H as (l0 & l1 & rest & -> & Hok & ->).
  change (slice_from_1 (l0 :: l1 :: rest)) with (l1 :: rest) in Hp.
  split.
  - rewrite Forall_lookup in Hok. exact (Hok _ _ Hp).
  - simpl. unfold StridedConvEncoder.blocks_of. rewrite list_lookup_imap, Hp. reflexivity.
Qed.

(** C3: a non-stem block of a constructed encoder is wrapped in the residual
    adapter exactly when a residual factory was given and the block's
    [in_ch] equals its [out_ch]; it is then the factory applied to the block
    assembled from the layer order, and otherwise that block itself. *)
Theorem encoder_residual_wrapping
    layers layer_order conv norm activation residual self i in_ch out_ch :
  StridedConvEncoder.__init__ layers layer_order conv norm activation residual = Ok self ->
  pairwise (slice_from_1 layers) !! i = Some (in_ch, out_ch) ->
  exists block,
    children (StridedConvEncoder.net self) !! S i = Some ("block_" +:+ pretty (S i), block) /\
    (is_wrapped block = true <-> residual ≠ None /\ in_ch = out_ch) /\
    (forall r, residual = Some r -> in_ch = out_ch ->
       block = Wrap r (StridedConvEncoder.plain_block_of
                         (StridedConvEncoder.name2fn conv norm activation)
                         layer_order (in_ch, out_ch))) /\
    (residual = None \/ in_ch ≠ out_ch ->
       block = StridedConvEncoder.plain_block_of
                 (StridedConvEncoder.name2fn conv norm activation)
                 layer_order (in_ch, out_ch)).
Proof.
  intros H Hp. destruct (encoder_block_lookup _ _ _ _ _ _ _ _ _ H Hp) as [_ Hb].
  eexists. split; [exact Hb|]. unfold StridedConvEncoder.block_of. simpl.
  destruct residual as [r|]; [case_bool_decide as Heq|]; simpl.
  - split_and!; [split; [intros _; split; [discriminate | exact Heq] | reflexivity]
                | intros r' [= <-] _; reflexivity
                | intros [[=]|Hne]; by destruct Hne].
  - split_and!; [split; [discriminate | intros [_ ?]; by destruct Heq]
                | intros r' _ ?; by destruct Heq
                | reflexivity].
  - split_and!; [split; [discriminate | intros [? _]; congruence]
                | intros r' [=]
                | reflexivity].
Qed.

Lemma encoder_residual_wrapping_witness :
  exists self block,
    StridedConvEncoder.__init__ [3; 64; 64] ["conv"; "norm"; "activation"]
      "modules.Conv2d" (Some "nn.BatchNorm2d") "modules.LeakyReLU"
      (Some "ResidualModule") = Ok self /\
    children (StridedConvEncoder.net self) !! 1%nat = Some ("block_1", block) /\
    is_wrapped block = true.
Proof.
  destruct (StridedConvEncoder.__init__ [3; 64; 64] ["conv"; "norm"; "activation"]
      "modules.Conv2d" (Some "nn.BatchNorm2d") "modules.LeakyReLU"
      (Some "ResidualModule")) as [self|e] eqn:H;
    [|vm_compute in H; discriminate].
  destruct (encoder_residual_wrapping _ _ _ _ _ _ _ 0%nat 64 64 H eq_refl)
    as (block & Hb & Hw & _).
  exists self, block. split_and!; [reflexivity | exact Hb |].
  apply Hw. split; [discriminate | reflexivity].
Defined.

(** The conv entry of a block assembled from a layer order that names
    "conv" carries the floor quotient of the two channel counts as stride. *)
Lemma conv_in_plain_block fns layer_order conv in_ch out_ch :
  fns !! "conv" = Some (Some conv) ->
  "conv" ∈ layer_order ->
  ("conv", Call conv [in_ch; out_ch] [("stride", out_ch `div` in_ch)])
  ∈ children (StridedConvEncoder.plain_block_of fns layer_order (in_ch, out_ch)).
Proof.
  intros Hf Hc. unfold StridedConvEncoder.plain_block_of. simpl.
  pose proof (OrderedDict_fn_elem_of
                (StridedConvEncoder.layer_of fns in_ch out_ch) layer_order "conv" Hc) as H.
  unfold StridedConvEncoder.layer_of at 1 in H. rewrite Hf in H. exact H.
Qed.

Lemma unwrap_block_of fns layer_order residual pair :
  StridedConvEncoder.unwrap (StridedConvEncoder.block_of fns layer_order residual pair)
  = StridedConvEncoder.plain_block_of fns layer_order pair.
Proof.
  unfold StridedConvEncoder.block_of.
  destruct residual; [case_bool_decide|]; reflexivity.
Qed.

(** Construction never raises [ConfigurationError]. *)
Lemma encoder_init_no_ConfigurationError layers layer_order conv norm activation residual :
  StridedConvEncoder.__init__ layers layer_order conv norm activation residual
  ≠ Raise ConfigurationError.
Proof.
  intros H. apply encoder_init_Raise in H
    as [[[=] _]|[[[=] _]|(bad & [=] & _)]].
Qed.

(** C1, the claim fails: the schedule (3, 64, 100) has the non-stem pair
    (64, 100), 100 is not a multiple of 64 and the default layer order names
    "conv", yet construction succeeds. *)
Lemma encoder_nonmultiple_counterexample :
  pairwise (slice_from_1 [3; 64; 100]) !! 0%nat = Some (64, 100) /\
  ¬ (64 | 100) /\
  "conv" ∈ StridedConvEncoder.default_layer_order /\
  is_Ok (StridedConvEncoder.__init__ [3; 64; 100]
           StridedConvEncoder.default_layer_order StridedConvEncoder.default_conv
           StridedConvEncoder.default_norm StridedConvEncoder.default_activation
           StridedConvEncoder.default_residual) /\
  StridedConvEncoder.__init__ [3; 64; 100]
    StridedConvEncoder.default_layer_order StridedConvEncoder.default_conv
    StridedConvEncoder.default_norm StridedConvEncoder.default_activation
    StridedConvEncoder.default_residual ≠ Raise ConfigurationError.
Proof.
  split_and!.
  - reflexivity.
  - intros [k Hk]. lia.
  - left.
  - eexists. vm_compute. reflexivity.
  - vm_compute. discriminate.
Qed.

(** C1, amended: construction never raises [ConfigurationError]; whenever it
    succeeds under a layer order that names "conv", the conv layer of every
    non-stem block was made with [stride] the floor of [out_ch / in_ch],
    whether or not [out_ch] is a multiple of [in_ch]. *)
Theorem encoder_stride_floor_quotient layers layer_order conv norm activation residual :
  StridedConvEncoder.__init__ layers layer_order conv norm activation residual
    ≠ Raise ConfigurationError /\
  forall self i in_ch out_ch,
    StridedConvEncoder.__init__ layers layer_order conv norm activation residual = Ok self ->
    pairwise (slice_from_1 layers) !! i = Some (in_ch, out_ch) ->
    "conv" ∈ layer_order ->
    exists block,
      children (StridedConvEncoder.net self) !! S i
      = Some ("block_" +:+ pretty (S i), block) /\
      ("conv", Call conv [in_ch; out_ch] [("stride", out_ch `div` in_ch)])
      ∈ children (StridedConvEncoder.unwrap block).
Proof.
  split; [apply encoder_init_no_ConfigurationError|].
  intros self i in_ch out_ch H Hp Hc.
  destruct (encoder_block_lookup _ _ _ _ _ _ _ _ _ H Hp) as [_ Hb].
  eexists. split; [exact Hb|]. rewrite unwrap_block_of.
  by apply conv_in_plain_block.
Qed.

Lemma encoder_stride_floor_quotient_witness :
  exists self block,
    StridedConvEncoder.__init__ [3; 64; 100] ["conv"; "norm"; "activation"]
      "modules.Conv2d" (Some "nn.BatchNorm2d") "modules.LeakyReLU" None = Ok self /\
    children (StridedConvEncoder.net self) !! 1%nat = Some ("block_1", block) /\
    ("conv", Call "modules.Conv2d" [64; 100] [("stride", 1)])
    ∈ children (StridedConvEncoder.unwrap block).
Proof.
  destruct (StridedConvEncoder.__init__ [3; 64; 100] ["conv"; "norm"; "activation"]
      "modules.Conv2d" (Some "nn.BatchNorm2d") "modules.LeakyReLU" None)
    as [self|e] eqn:H; [|vm_compute in H; discriminate].
  destruct (proj2 (encoder_stride_floor_quotient [3; 64; 100]
                     ["conv"; "norm"; "activation"] "modules.Conv2d"
                     (Some "nn.BatchNorm2d") "modules.LeakyReLU" None)
              self 0%nat 64 100 H eq_refl)
    as (block & Hb & Hin); [left|].
  exists self, block. split_and!; [reflexivity | exact Hb | exact Hin].
Defined.

(** When construction goes through. *)
Lemma encoder_init_succeeds layers layer_order conv norm activation residual :
  (2 <= length layers)%nat ->
  Forall (fun name => name ∈ ["activation"; "conv"; "norm"]) layer_order ->
  Forall (fun pair => pair.1 ≠ 0) (pairwise (slice_from_1 layers)) ->
  is_Ok (StridedConvEncoder.__init__ layers layer_order conv norm activation residual).
Proof.
  intros Hlen Hreg Hnz. destruct layers as [|l0 [|l1 rest]]; [simpl in Hlen; lia..|].
  eexists. apply encoder_init_Ok. exists l0, l1, rest. split_and!; [reflexivity| |reflexivity].
  change (slice_from_1 (l0 :: l1 :: rest)) with (l1 :: rest) in Hnz.
  eapply Forall_impl; [exact Hnz|]. intros pair Hp. simpl in Hp.
  eapply Forall_impl; [exact Hreg|]. intros name Hn. simpl in Hn.
  split; [by apply name2fn_is_Some | auto].
Qed.

(** C10, the claim fails: the schedule (3, 128, 64, 0, 8) has the
    shrinking non-stem pair (128, 64) and the default layer order names
    "conv", yet construction raises [ZeroDivisionError] at the pair (0, 8);
    and the schedule (3, 128, 64) under the layer order ("conv", "pool")
    raises [KeyError], "pool" being no key of the role mapping. *)
Lemma encoder_shrinking_counterexample :
  pairwise (slice_from_1 [3; 128; 64; 0; 8]) !! 0%nat = Some (128, 64) /\
  0 < 64 < 128 /\
  "conv" ∈ StridedConvEncoder.default_layer_order /\
  StridedConvEncoder.__init__ [3; 128; 64; 0; 8]
    StridedConvEncoder.default_layer_order StridedConvEncoder.default_conv
    StridedConvEncoder.default_norm StridedConvEncoder.default_activation
    StridedConvEncoder.default_residual = Raise ZeroDivisionError /\
  pairwise (slice_from_1 [3; 128; 64]) !! 0%nat = Some (128, 64) /\
  "conv" ∈ ["conv"; "pool"] /\
  StridedConvEncoder.__init__ [3; 128; 64] ["conv"; "pool"]
    StridedConvEncoder.default_conv StridedConvEncoder.default_norm
    StridedConvEncoder.default_activation StridedConvEncoder.default_residual
  = Raise (KeyError "pool").
Proof.
  split_and!; try reflexivity; try lia.
  - unfold StridedConvEncoder.default_layer_order. set_solver.
  - set_solver.
Qed.

(** C10, amended: a schedule with a shrinking non-stem pair
    [0 < out_ch < in_ch] is accepted under a layer order that names "conv",
    provided every role of the layer order is a key of the role mapping and
    no non-stem [in_ch] is zero: the stride inferred for the pair is the
    floor of [out_ch / in_ch], which is 0, and the conv factory of that block
    is called with [stride=0]. *)
Theorem encoder_shrinking_stride_zero
    layers layer_order conv norm activation residual i in_ch out_ch :
  Forall (fun name => name ∈ ["activation"; "conv"; "norm"]) layer_order ->
  "conv" ∈ layer_order ->
  Forall (fun pair => pair.1 ≠ 0) (pairwise (slice_from_1 layers)) ->
  pairwise (slice_from_1 layers) !! i = Some (in_ch, out_ch) ->
  0 < out_ch < in_ch ->
  out_ch `div` in_ch = 0 /\
  exists self block,
    StridedConvEncoder.__init__ layers layer_order conv norm activation residual = Ok self /\
    children (StridedConvEncoder.net self) !! S i
    = Some ("block_" +:+ pretty (S i), Sequential block) /\
    ("conv", Call conv [in_ch; out_ch] [("stride", 0)]) ∈ block.
Proof.
  intros Hreg Hc Hnz Hp Hlt.
  assert (Hq : out_ch `div` in_ch = 0) by (apply Z.div_small; lia).
  split; [exact Hq|].
  assert (Hlen : (2 <= length layers)%nat).
  { apply lookup_lt_Some in Hp. rewrite pairwise_length in Hp.
    unfold slice_from_1 in Hp. rewrite length_drop in Hp. lia. }
  destruct (encoder_init_succeeds layers layer_order conv norm activation residual
              Hlen Hreg Hnz) as [self H].
  destruct (encoder_block_lookup _ _ _ _ _ _ _ _ _ H Hp) as [_ Hb].
  exists self. eexists. split; [exact H|].
  unfold StridedConvEncoder.block_of in Hb. cbn [fst snd] in Hb.
  assert (Hplain :
    (match residual with
     | Some r => if bool_decide (in_ch = out_ch)
                 then Wrap r (StridedConvEncoder.plain_block_of
                                (StridedConvEncoder.name2fn conv norm activation)
                                layer_order (in_ch, out_ch))
                 else StridedConvEncoder.plain_block_of
                        (StridedConvEncoder.name2fn conv norm activation)
                        layer_order (in_ch, out_ch)
     | None => StridedConvEncoder.plain_block_of
                 (StridedConvEncoder.name2fn conv norm activation)
                 layer_order (in_ch, out_ch)
     end) = StridedConvEncoder.plain_block_of
              (StridedConvEncoder.name2fn conv norm activation)
              layer_order (in_ch, out_ch)).
  { destruct residual; [|reflexivity]. rewrite bool_decide_eq_false_2 by lia. reflexivity. }
  rewrite Hplain in Hb. split; [exact Hb|].
  rewrite <- Hq.
  exact (conv_in_plain_block (StridedConvEncoder.name2fn conv norm activation)
           layer_order conv in_ch out_ch eq_refl Hc).
Qed.

Lemma encoder_shrinking_stride_zero_witness :
  64 `div` 128 = 0 /\
  exists self block,
    StridedConvEncoder.__init__ [3; 128; 64] ["conv"; "norm"; "activation"]
      "modules.Conv2d" (Some "nn.BatchNorm2d") "modules.LeakyReLU" None = Ok self /\
    children (StridedConvEncoder.net self) !! 1%nat = Some ("block_1", Sequential block) /\
    ("conv", Call "modules.Conv2d" [128; 64] [("stride", 0)]) ∈ block.
Proof.
  apply (encoder_shrinking_stride_zero [3; 128; 64] ["conv"; "norm"; "activation"]
           "modules.Conv2d" (Some "nn.BatchNorm2d") "modules.LeakyReLU" None 0%nat 128 64).
  - repeat constructor; set_solver.
  - left.
  - repeat constructor; simpl; lia.
  - reflexivity.
  - lia.
Defined.

(** C6, the claim fails: a one-entry schedule makes construction raise
    [IndexError], not [ConfigurationError]. *)
Lemma encoder_short_schedule_counterexample :
  (length [3] < 2)%nat /\
  StridedConvEncoder.__init__ [3] StridedConvEncoder.default_layer_order
    StridedConvEncoder.default_conv StridedConvEncoder.default_norm
    StridedConvEncoder.default_activation StridedConvEncoder.default_residual
  ≠ Raise ConfigurationError.
Proof. split; [simpl; lia | vm_compute; discriminate]. Qed.

(** C6, amended: with a channel schedule of fewer than 2 entries construction
    fails at assembly time, raising [IndexError]. *)
Theorem encoder_short_schedule_IndexError
    layers layer_order conv norm activation residual :
  (length layers < 2)%nat ->
  StridedConvEncoder.__init__ layers layer_order conv norm activation residual
  = Raise IndexError.
Proof.
  intros Hlen. destruct layers as [|l0 [|l1 rest]]; [reflexivity..|].
  simpl in Hlen. lia.
Qed.

Lemma encoder_short_schedule_IndexError_witness :
  StridedConvEncoder.__init__ [] ["conv"] "modules.Conv2d" None "modules.LeakyReLU" None
  = Raise IndexError.
Proof.
  apply (encoder_short_schedule_IndexError [] ["conv"] "modules.Conv2d" None
           "modules.LeakyReLU" None).
  simpl. lia.
Defined.

(** C5, the claim fails: with a two-entry schedule (encoder) or no latent
    channels (head) the layer order is never consulted, and a role that no
    factory is registered for goes unnoticed. *)
Lemma unregistered_role_counterexample :
  "bogus" ∈ ["bogus"] /\
  StridedConvEncoder.name2fn StridedConvEncoder.default_conv
    StridedConvEncoder.default_norm StridedConvEncoder.default_activation !! "bogus" = None /\
  is_Ok (StridedConvEncoder.__init__ [3; 64] ["bogus"] StridedConvEncoder.default_conv
           StridedConvEncoder.default_norm StridedConvEncoder.default_activation
           StridedConvEncoder.default_residual) /\
  StridedConvEncoder.__init__ [3; 64] ["bogus"] StridedConvEncoder.default_conv
    StridedConvEncoder.default_norm StridedConvEncoder.default_activation
    StridedConvEncoder.default_residual ≠ Raise ConfigurationError /\
  LinearHead.name2fn LinearHead.default_linear LinearHead.default_activation None None
    !! "bogus" = None /\
  is_Ok (LinearHead.__init__ 512 1 None ["bogus"] LinearHead.default_linear
           LinearHead.default_activation None None) /\
  LinearHead.__init__ 512 1 None ["bogus"] LinearHead.default_linear
    LinearHead.default_activation None None ≠ Raise ConfigurationError.
Proof.
  split_and!.
  - left.
  - reflexivity.
  - eexists. vm_compute. reflexivity.
  - vm_compute. discriminate.
  - reflexivity.
  - eexists. vm_compute. reflexivity.
  - vm_compute. discriminate.
Qed.

(** C5, amended: a role of the layer order that is not a key of the
    role-to-factory mapping makes construction fail at assembly time when a
    block beyond the stem is assembled (an encoder schedule of at least 3
    entries, a head with latent channels): the head raises the mapping's
    [KeyError], the encoder raises that [KeyError] or, from a stride division
    reached first, [ZeroDivisionError]; never [ConfigurationError]. With a
    two-entry schedule, or without latent channels, construction succeeds
    whatever the layer order. *)
Theorem unregistered_role_KeyError :
  (forall layers layer_order conv norm activation residual bad,
     bad ∈ layer_order ->
     StridedConvEncoder.name2fn conv norm activation !! bad = None ->
     (3 <= length layers)%nat ->
     exists e,
       StridedConvEncoder.__init__ layers layer_order conv norm activation residual
       = Raise e /\
       e ≠ ConfigurationError /\
       ((exists bad', e = KeyError bad' /\ bad' ∈ layer_order /\
           StridedConvEncoder.name2fn conv norm activation !! bad' = None) \/
        (e = ZeroDivisionError /\ "conv" ∈ layer_order /\
           exists pair, pair ∈ pairwise (slice_from_1 layers) /\ pair.1 = 0))) /\
  (forall in_channels out_channels latent_channels layer_order
          linear activation norm dropout bad,
     bad ∈ layer_order ->
     LinearHead.name2fn linear activation norm dropout !! bad = None ->
     default [] latent_channels ≠ [] ->
     exists bad',
       LinearHead.__init__ in_channels out_channels latent_channels layer_order
         linear activation norm dropout = Raise (KeyError bad') /\
       bad' ∈ layer_order /\
       LinearHead.name2fn linear activation norm dropout !! bad' = None) /\
  (forall layers layer_order conv norm activation residual,
     length layers = 2%nat ->
     is_Ok (StridedConvEncoder.__init__ layers layer_order conv norm activation residual)) /\
  (forall in_channels out_channels latent_channels layer_order
          linear activation norm dropout,
     default [] latent_channels = [] ->
     is_Ok (LinearHead.__init__ in_channels out_channels latent_channels layer_order
              linear activation norm dropout)).
Proof.
  split_and!.
  - intros layers layer_order conv norm activation residual bad Hbad Hf Hlen.
    destruct (StridedConvEncoder.__init__ layers layer_order conv norm activation residual)
      as [self|e] eqn:H.
    + apply encoder_init_Ok in H as (l0 & l1 & rest & -> & Hok & _).
      destruct rest as [|l2 rest]; [simpl in Hlen; lia|].
      rewrite pairwise_cons2 in Hok. apply Forall_cons in Hok as [Hok _].
      rewrite Forall_forall in Hok. destruct (Hok _ Hbad) as [[f Hs] _]. congruence.
    + exists e. split; [reflexivity|].
      apply encoder_init_Raise in H as [[-> Hl]|[(-> & Hc & Hp)|(bad' & -> & Hb & Hn & _)]].
      * lia.
      * split; [discriminate | right; auto].
      * split; [discriminate | left; eauto].
  - intros in_channels out_channels latent_channels layer_order
      linear activation norm dropout bad Hbad Hf Hl.
    destruct (LinearHead.__init__ in_channels out_channels latent_channels layer_order
                linear activation norm dropout) as [self|e] eqn:H.
    + apply head_init_Ok in H as [[Hnil|Hok] _]; [by destruct Hl|].
      rewrite Forall_forall in Hok. destruct (Hok _ Hbad) as [f Hs]. congruence.
    + apply head_init_Raise in H as (bad' & -> & Hb & Hn & _). eauto.
  - intros layers layer_order conv norm activation residual Hlen.
    destruct layers as [|l0 [|l1 [|l2 rest]]]; try discriminate.
    eexists. apply encoder_init_Ok. exists l0, l1, [].
    split_and!; [reflexivity | constructor | reflexivity].
  - intros in_channels out_channels latent_channels layer_order
      linear activation norm dropout Hl.
    eexists. apply head_init_Ok. split; [by left | reflexivity].
Qed.

Lemma unregistered_role_KeyError_witness :
  StridedConvEncoder.__init__ [3; 64; 128] ["conv"; "bogus"] "modules.Conv2d" None
    "modules.LeakyReLU" None = Raise (KeyError "bogus") /\
  LinearHead.__init__ 512 1 (Some [128]) ["linear"; "bogus"] "nn.Linear"
    "modules.LeakyReLU" None None = Raise (KeyError "bogus").
Proof.
  destruct unregistered_role_KeyError as (Henc & Hhead & _ & _). split.
  - destruct (Henc [3; 64; 128] ["conv"; "bogus"] "modules.Conv2d" None
                "modules.LeakyReLU" None "bogus") as (e & He & _);
      [right; left | reflexivity | simpl; lia |].
    rewrite He. vm_compute in He. symmetry. exact He.
  - destruct (Hhead 512 1 (Some [128]) ["linear"; "bogus"] "nn.Linear"
                "modules.LeakyReLU" None None "bogus") as (bad & He & _);
      [right; left | reflexivity | discriminate |].
    rewrite He. vm_compute in He. symmetry. exact He.
Defined.






(** C9: constructing the composite classifier calls the initialisation
    routine exactly once, on the network with its encoder, pool and head in
    place; a forward call never calls it; so in a session of a construction
    followed by any number of forward calls the one call to the routine comes
    first. *)
Theorem classifier_initialised_once {scalar : Type}
    (net_init_ : @VGGConv.t scalar -> @VGGConv.t scalar)
    (encoder pool head : VGGConv.forward_fn) :
  let assembled :=
    {| VGGConv.encoder := encoder; VGGConv.pool := pool; VGGConv.head := head |} in
  (forall tr,
     VGGConv.__init__ net_init_ encoder pool head tr
     = (Ok (net_init_ assembled), tr ++ [VGGConv.NetInit assembled])) /\
  (forall (self : @VGGConv.t scalar) (x : VGGConv.Tensor) (tr : list VGGConv.event),
     exists evs, (VGGConv.forward self x tr).2 = tr ++ evs /\ VGGConv.quiet evs) /\
  (forall xs,
     exists evs,
       (VGGConv.session net_init_ encoder pool head xs []).2
       = VGGConv.NetInit assembled :: evs /\ VGGConv.quiet evs).
Proof.
  intros assembled. split_and!.
  - intros tr. apply classifier_init_trace.
  - apply forward_trace.
  - apply session_trace.
Qed.

(** * Further properties of the code *)

(** ** The encoder: when construction goes through, and what it builds *)

Lemma encoder_pairs_ok_iff conv norm activation layer_order (pairs : list (Z * Z)) :
  Forall (fun pair =>
            Forall (StridedConvEncoder.layer_ok
                      (StridedConvEncoder.name2fn conv norm activation) pair.1)
                   layer_order) pairs <->
  pairs = [] \/
  (Forall (fun name => name ∈ ["activation"; "conv"; "norm"]) layer_order /\
   ("conv" ∈ layer_order -> Forall (fun pair => pair.1 ≠ 0) pairs)).
Proof.
  split.
  - intros Hok. destruct pairs as [|pair rest]; [by left | right]. split.
    + apply Forall_cons in Hok as [Hp _].
      eapply Forall_impl; [exact Hp|]. intros name [Hs _]. exact (proj1 (name2fn_is_Some _ _ _ _) Hs).
    + intros Hc. eapply Forall_impl; [exact Hok|]. intros p Hp. simpl in Hp.
      rewrite Forall_forall in Hp. destruct (Hp _ Hc) as [_ Hz]. by apply Hz.
  - intros [->|[Hreg Hz]]; [constructor|].
    apply Forall_forall. intros pair Hpair. apply Forall_forall. intros name Hname.
    split.
    + apply name2fn_is_Some. rewrite Forall_forall in Hreg. exact (Hreg _ Hname).
    + intros ->. specialize (Hz Hname). rewrite Forall_forall in Hz. exact (Hz _ Hpair).
Qed.

(** X1: construction of the encoder succeeds exactly when the schedule has at
    least two entries and, if it has more than two, every role of the layer
    order is one of "activation", "conv", "norm" and, when "conv" is among
    them, no block after the stem has zero input channels. *)
Theorem encoder_init_succeeds_iff layers layer_order conv norm activation residual :
  is_Ok (StridedConvEncoder.__init__ layers layer_order conv norm activation residual) <->
  (2 <= length layers)%nat /\
  (length layers = 2%nat \/
   (Forall (fun name => name ∈ ["activation"; "conv"; "norm"]) layer_order /\
    ("conv" ∈ layer_order ->
     Forall (fun pair => pair.1 ≠ 0) (pairwise (slice_from_1 layers))))).
Proof.
  split.
  - intros [self H]. apply encoder_init_Ok in H as (l0 & l1 & rest & -> & Hok & _).
    split; [simpl; lia|].
    apply encoder_pairs_ok_iff in Hok as [Hnil|Hok]; [left | by right].
    apply pairwise_nil_iff in Hnil. by subst.
  - intros [Hlen Hok]. destruct layers as [|l0 [|l1 rest]]; [simpl in Hlen; lia..|].
    eexists. apply encoder_init_Ok. exists l0, l1, rest.
    split_and!; [reflexivity | | reflexivity].
    apply encoder_pairs_ok_iff. destruct Hok as [Hl|Hok]; [left | by right].
    destruct rest; [reflexivity | discriminate].
Qed.

Lemma encoder_children_names fns layer_order residual b0 channels :
  (("block_0", b0) :: StridedConvEncoder.blocks_of fns layer_order residual 1 channels).*1
  = (fun i : nat => "block_" +:+ pretty i) <$> seq 0 (S (length channels)).
Proof.
  simpl. f_equal. unfold StridedConvEncoder.blocks_of. rewrite fmap_imap.
  rewrite <- (imap_seq channels (fun i : nat => "block_" +:+ pretty i) 1).
  apply imap_ext. reflexivity.
Qed.

(** X2: a constructed encoder has one block per adjacent pair of the
    schedule, [len(layers) - 1] in all, named [block_0], [block_1], ... in
    order, no two alike. *)
Theorem encoder_block_names layers layer_order conv norm activation residual self :
  StridedConvEncoder.__init__ layers layer_order conv norm activation residual = Ok self ->
  names (StridedConvEncoder.net self)
  = (fun i : nat => "block_" +:+ pretty i) <$> seq 0 (length layers - 1) /\
  length (children (StridedConvEncoder.net self)) = length (pairwise layers) /\
  NoDup (names (StridedConvEncoder.net self)).
Proof.
  intros H. apply encoder_init_Ok in H as (l0 & l1 & rest & -> & _ & ->).
  unfold names. cbn [StridedConvEncoder.net children].
  pose proof (block_names_NoDup
                (StridedConvEncoder.stem conv activation l0 l1)
                (StridedConvEncoder.name2fn conv norm activation)
                layer_order residual (pairwise (l1 :: rest))) as Hnd.
  rewrite encoder_children_names in *.
  assert (Hlen : length (pairwise (l1 :: rest)) = length rest)
    by (rewrite pairwise_length; simpl; lia).
  split_and!.
  - rewrite Hlen. reflexivity.
  - rewrite pairwise_length. simpl.
    unfold StridedConvEncoder.blocks_of. rewrite length_imap, Hlen. lia.
  - exact Hnd.
Qed.

Lemma encoder_block_names_witness :
  exists self,
    StridedConvEncoder.__init__ [3; 64; 128; 128] ["conv"; "activation"]
      "modules.Conv2d" None "modules.LeakyReLU" None = Ok self /\
    names (StridedConvEncoder.net self) = ["block_0"; "block_1"; "block_2"].
Proof.
  destruct (StridedConvEncoder.__init__ [3; 64; 128; 128] ["conv"; "activation"]
      "modules.Conv2d" None "modules.LeakyReLU" None) as [self|e] eqn:H;
    [|vm_compute in H; discriminate].
  exists self. split; [reflexivity|].
  destruct (encoder_block_names _ _ _ _ _ _ _ H) as (Hn & _ & _).
  rewrite Hn. reflexivity.
Defined.

(** ** Ordered dictionaries, continued *)

Lemma od_set_NoDup {V} (k : string) (v : V) d :
  NoDup d.*1 -> NoDup (od_set k v d).*1.
Proof.
  induction d as [|[k' v'] d IH]; simpl; intros Hnd.
  - apply NoDup_singleton.
  - apply NoDup_cons in Hnd as [Hk' Hnd]. case_bool_decide as Hk; simpl.
    + subst k'. by apply NoDup_cons.
    + apply NoDup_cons. split; [|by apply IH].
      rewrite od_set_key. intros [?|?]; [congruence | done].
Qed.

Lemma OrderedDict_foldl_keys {V} (items : list (string * V)) : forall acc,
  let d := foldl (fun d kv => od_set kv.1 kv.2 d) acc items in
  (NoDup acc.*1 -> NoDup d.*1) /\
  (forall k, k ∈ d.*1 <-> k ∈ acc.*1 \/ k ∈ items.*1).
Proof.
  induction items as [|[k v] items IH]; intros acc; simpl.
  - split; [done|]. intros k. rewrite elem_of_nil. tauto.
  - destruct (IH (od_set k v acc)) as [H1 H2]. split.
    + intros Hnd. apply H1. by apply od_set_NoDup.
    + intros k'. rewrite H2, od_set_key, elem_of_cons. tauto.
Qed.

Lemma OrderedDict_keys_NoDup {V} (items : list (string * V)) :
  NoDup (OrderedDict items).*1.
Proof. apply (OrderedDict_foldl_keys items []). constructor. Qed.

Lemma OrderedDict_keys {V} (items : list (string * V)) (k : string) :
  k ∈ (OrderedDict items).*1 <-> k ∈ items.*1.
Proof.
  destruct (OrderedDict_foldl_keys items []) as [_ H]. unfold OrderedDict.
  rewrite H. simpl. rewrite elem_of_nil. tauto.
Qed.

Lemma od_get_None {V} (k : string) (d : list (string * V)) :
  od_get k d = None <-> k ∉ d.*1.
Proof.
  induction d as [|[k' v] d IH]; simpl.
  - rewrite elem_of_nil. tauto.
  - rewrite not_elem_of_cons. case_bool_decide; [|tauto].
    split; [discriminate | tauto].
Qed.

Lemma od_get_elem_of {V} (k : string) (v : V) (d : list (string * V)) :
  NoDup d.*1 -> (k, v) ∈ d -> od_get k d = Some v.
Proof.
  induction d as [|[k' v'] d IH]; simpl; intros Hnd Hin.
  - by apply elem_of_nil in Hin.
  - apply NoDup_cons in Hnd as [Hk' Hnd]. apply elem_of_cons in Hin as [[= <- <-]|Hin].
    + by rewrite bool_decide_eq_true_2.
    + rewrite bool_decide_eq_false_2; [by apply IH|].
      intros <-. apply Hk'. apply list_elem_of_fmap. by exists (k, v).
Qed.

Lemma od_get_OrderedDict_fn {V} (f : string -> V) (ks : list string) (k : string) :
  od_get k (OrderedDict ((fun k => (k, f k)) <$> ks))
  = if bool_decide (k ∈ ks) then Some (f k) else None.
Proof.
  case_bool_decide as Hk.
  - apply od_get_elem_of; [apply OrderedDict_keys_NoDup | by apply OrderedDict_fn_elem_of].
  - apply od_get_None. rewrite OrderedDict_keys, <- list_fmap_compose.
    by rewrite list_fmap_id.
Qed.

(** ** Loops, continued *)

Lemma for_each_app {A S} (body : S -> A -> result S) xs ys : forall acc,
  for_each body acc (xs ++ ys) = for_each body acc xs ≫= fun acc' => for_each body acc' ys.
Proof.
  induction xs as [|x xs IH]; intros acc; [reflexivity|].
  simpl. destruct (body acc x) as [acc'|e]; simpl; [apply IH | reflexivity].
Qed.

Lemma first_unregistered_Some fns layer_order k bad :
  first_unregistered fns layer_order = Some (k, bad) ->
  layer_order = take k layer_order ++ bad :: drop (S k) layer_order /\
  Forall (fun name => is_Some (fns !! name)) (take k layer_order) /\
  fns !! bad = None.
Proof.
  unfold first_unregistered. intros H. apply list_find_Some in H as (Hk & Hbad & Hbefore).
  split_and!.
  - by rewrite <- (take_drop_middle _ _ _ Hk) at 1.
  - apply Forall_forall. intros name Hin.
    apply list_elem_of_lookup in Hin as [j Hj].
    pose proof (lookup_lt_Some _ _ _ Hj) as Hlt. rewrite length_take in Hlt.
    rewrite lookup_take_lt in Hj by lia.
    apply not_eq_None_Some. apply (Hbefore j name Hj). lia.
  - exact Hbad.
Qed.

Lemma first_unregistered_None fns layer_order :
  first_unregistered fns layer_order = None <->
  Forall (fun name => is_Some (fns !! name)) layer_order.
Proof.
  unfold first_unregistered. rewrite list_find_None.
  apply Forall_iff. intros name. by rewrite not_eq_None_Some.
Qed.

(** ** The blocks of the encoder *)

(** A child of a constructed encoder past [block_0] is the block of one
    adjacent pair of [layers[1:]]. *)
Lemma encoder_child_inv layers layer_order conv norm activation residual self i name block :
  StridedConvEncoder.__init__ layers layer_order conv norm activation residual = Ok self ->
  children (StridedConvEncoder.net self) !! S i = Some (name, block) ->
  exists pair,
    pairwise (slice_from_1 layers) !! i = Some pair /\
    name = "block_" +:+ pretty (S i) /\
    block = StridedConvEncoder.block_of (StridedConvEncoder.name2fn conv norm activation)
              layer_order residual pair /\
    Forall (StridedConvEncoder.layer_ok (StridedConvEncoder.name2fn conv norm activation)
              pair.1) layer_order.
Proof.
  intros H Hc. pose proof H as H'.
  apply encoder_init_Ok in H' as (l0 & l1 & rest & -> & Hok & ->).
  cbn [StridedConvEncoder.net children] in Hc. simpl in Hc.
  unfold StridedConvEncoder.blocks_of in Hc.
  apply list_lookup_imap_Some in Hc as (pair & Hp & [= -> ->]).
  exists pair. change (slice_from_1 (l0 :: l1 :: rest)) with (l1 :: rest).
  split_and!; [exact Hp | reflexivity | reflexivity |].
  rewrite Forall_lookup in Hok. exact (Hok _ _ Hp).
Qed.

Lemma names_plain_block fns layer_order pair :
  names (StridedConvEncoder.plain_block_of fns layer_order pair)
  = (OrderedDict ((fun name => (name, StridedConvEncoder.layer_of fns pair.1 pair.2 name))
                    <$> layer_order)).*1.
Proof. reflexivity. Qed.

(** X3: in a constructed encoder every block after the stem has one child
    per distinct role of the layer order, named after the role: a role that
    is repeated in the layer order gives a single layer, and a layer order
    without repetition gives exactly its roles, in its order. *)
Theorem encoder_block_roles
    layers layer_order conv norm activation residual self i name block :
  StridedConvEncoder.__init__ layers layer_order conv norm activation residual = Ok self ->
  children (StridedConvEncoder.net self) !! S i = Some (name, block) ->
  NoDup (names (StridedConvEncoder.unwrap block)) /\
  (forall role, role ∈ names (StridedConvEncoder.unwrap block) <-> role ∈ layer_order) /\
  (NoDup layer_order -> names (StridedConvEncoder.unwrap block) = layer_order).
Proof.
  intros H Hc.
  destruct (encoder_child_inv _ _ _ _ _ _ _ _ _ _ H Hc) as (pair & _ & _ & -> & _).
  rewrite unwrap_block_of, names_plain_block.
  assert (Hkeys : ((fun name => (name, StridedConvEncoder.layer_of
                                   (StridedConvEncoder.name2fn conv norm activation)
                                   pair.1 pair.2 name)) <$> layer_order).*1 = layer_order).
  { rewrite <- list_fmap_compose. apply list_fmap_id. }
  split_and!.
  - apply OrderedDict_keys_NoDup.
  - intros role. by rewrite OrderedDict_keys, Hkeys.
  - intros Hnd. rewrite OrderedDict_NoDup; [exact Hkeys | by rewrite Hkeys].
Qed.

Lemma encoder_block_roles_witness :
  exists self block,
    StridedConvEncoder.__init__ [3; 64; 128] ["conv"; "activation"; "conv"]
      "modules.Conv2d" None "modules.LeakyReLU" None = Ok self /\
    children (StridedConvEncoder.net self) !! 1%nat = Some ("block_1", block) /\
    NoDup (names (StridedConvEncoder.unwrap block)) /\
    length (names (StridedConvEncoder.unwrap block)) = 2%nat.
Proof.
  destruct (StridedConvEncoder.__init__ [3; 64; 128] ["conv"; "activation"; "conv"]
      "modules.Conv2d" None "modules.LeakyReLU" None) as [self|e] eqn:H;
    [|vm_compute in H; discriminate].
  destruct (children (StridedConvEncoder.net self) !! 1%nat) as [[name block]|] eqn:Hc;
    [|vm_compute in H; injection H as <-; vm_compute in Hc; discriminate].
  destruct (encoder_block_roles _ _ _ _ _ _ _ _ _ _ H Hc) as (Hnd & _ & _).
  exists self, block. split; [reflexivity|].
  vm_compute in H. injection H as <-. vm_compute in Hc. injection Hc as <- <-.
  split_and!; [reflexivity | exact Hnd | reflexivity].
Defined.

Lemma od_get_conv_plain_block conv norm activation layer_order pair :
  "conv" ∈ layer_order ->
  od_get "conv" (children (StridedConvEncoder.plain_block_of
                             (StridedConvEncoder.name2fn conv norm activation)
                             layer_order pair))
  = Some (Call conv [pair.1; pair.2] [("stride", pair.2 `div` pair.1)]).
Proof.
  intros Hc. unfold StridedConvEncoder.plain_block_of. cbn [children].
  rewrite (od_get_OrderedDict_fn
             (StridedConvEncoder.layer_of (StridedConvEncoder.name2fn conv norm activation)
                pair.1 pair.2)).
  rewrite bool_decide_eq_true_2 by exact Hc. reflexivity.
Qed.

(** X4: a block of a constructed encoder that is wrapped in the residual
    adapter has equal input and output channels; when the layer order names
    "conv", these channels are non-zero and the convolution of the block was
    made with [stride=1]: the block the adapter adds its input to keeps the
    spatial size. *)
Theorem encoder_wrapped_block_stride_one
    layers layer_order conv norm activation residual self i name block :
  StridedConvEncoder.__init__ layers layer_order conv norm activation residual = Ok self ->
  children (StridedConvEncoder.net self) !! S i = Some (name, block) ->
  is_wrapped block = true ->
  exists ch,
    pairwise (slice_from_1 layers) !! i = Some (ch, ch) /\
    ("conv" ∈ layer_order ->
     ch ≠ 0 /\
     od_get "conv" (children (StridedConvEncoder.unwrap block))
     = Some (Call conv [ch; ch] [("stride", 1)])).
Proof.
  intros H Hc Hw.
  destruct (encoder_child_inv _ _ _ _ _ _ _ _ _ _ H Hc)
    as ([in_ch out_ch] & Hp & _ & -> & Hok).
  rewrite unwrap_block_of.
  unfold StridedConvEncoder.block_of in Hw. cbn [fst snd] in *.
  destruct residual as [r|]; [|discriminate].
  case_bool_decide as Heq; [|discriminate]. subst out_ch.
  exists in_ch. split; [exact Hp|]. intros Hconv.
  rewrite Forall_forall in Hok. destruct (Hok _ Hconv) as [_ Hz].
  specialize (Hz eq_refl). split; [exact Hz|].
  rewrite od_get_conv_plain_block by exact Hconv. cbn [fst snd].
  by rewrite Z.div_same.
Qed.

Lemma encoder_wrapped_block_stride_one_witness :
  exists self block,
    StridedConvEncoder.__init__ [3; 64; 64] ["conv"; "norm"; "activation"]
      "modules.Conv2d" (Some "nn.BatchNorm2d") "modules.LeakyReLU"
      (Some "ResidualModule") = Ok self /\
    children (StridedConvEncoder.net self) !! 1%nat = Some ("block_1", block) /\
    od_get "conv" (children (StridedConvEncoder.unwrap block))
    = Some (Call "modules.Conv2d" [64; 64] [("stride", 1)]).
Proof.
  destruct (StridedConvEncoder.__init__ [3; 64; 64] ["conv"; "norm"; "activation"]
      "modules.Conv2d" (Some "nn.BatchNorm2d") "modules.LeakyReLU"
      (Some "ResidualModule")) as [self|e] eqn:H;
    [|vm_compute in H; discriminate].
  destruct (children (StridedConvEncoder.net self) !! 1%nat) as [[name block]|] eqn:Hc;
    [|vm_compute in H; injection H as <-; vm_compute in Hc; discriminate].
  assert (Hw : is_wrapped block = true /\ name = "block_1").
  { vm_compute in H. injection H as <-. vm_compute in Hc. injection Hc as <- <-. done. }
  destruct Hw as [Hw ->].
  destruct (encoder_wrapped_block_stride_one _ _ _ _ _ _ _ _ _ _ H Hc Hw)
    as (ch & Hp & Hconv).
  destruct Hconv as [_ Hget]; [left|].
  vm_compute in Hp. injection Hp as <-.
  exists self, block. split_and!; [reflexivity | exact Hc | exact Hget].
Defined.

(** ** Channel bookkeeping of the encoder *)

Lemma pairwise_lookup {A} (l : list A) (i : nat) (a b : A) :
  pairwise l !! i = Some (a, b) <-> l !! i = Some a /\ l !! S i = Some b.
Proof.
  unfold pairwise. rewrite lookup_zip_with_Some. split.
  - intros (x & y & [= -> ->] & Hx & Hy). rewrite lookup_drop in Hy. auto.
  - intros [Hx Hy]. exists a, b. rewrite lookup_drop. auto.
Qed.

(** Adjacent pairs chain: the second component of one is the first of the
    next. *)
Lemma pairwise_chain {A} (l : list A) (i : nat) (a b c d : A) :
  pairwise l !! i = Some (a, b) -> pairwise l !! S i = Some (c, d) -> b = c.
Proof.
  rewrite !pairwise_lookup. intros [_ Hb] [Hc _]. congruence.
Qed.

Lemma conv_channels_block conv norm activation layer_order residual pair :
  "conv" ∈ layer_order ->
  Forall (StridedConvEncoder.layer_ok (StridedConvEncoder.name2fn conv norm activation)
            pair.1) layer_order ->
  conv_channels (StridedConvEncoder.block_of
                   (StridedConvEncoder.name2fn conv norm activation)
                   layer_order residual pair) = Some pair.
Proof.
  intros Hc Hok. unfold conv_channels, block_conv. rewrite unwrap_block_of.
  assert (Hno : od_get "conv_0"
                  (children (StridedConvEncoder.plain_block_of
                               (StridedConvEncoder.name2fn conv norm activation)
                               layer_order pair)) = None).
  { apply od_get_None. fold (names (StridedConvEncoder.plain_block_of
                               (StridedConvEncoder.name2fn conv norm activation)
                               layer_order pair)).
    rewrite names_plain_block, OrderedDict_keys, <- list_fmap_compose, list_fmap_id.
    intros Hin. rewrite Forall_forall in Hok. destruct (Hok _ Hin) as [Hs _].
    apply name2fn_is_Some in Hs.
    repeat (apply elem_of_cons in Hs as [[=]|Hs]). by apply elem_of_nil in Hs. }
  rewrite Hno, od_get_conv_plain_block by exact Hc. by destruct pair.
Qed.

(** X5: in a constructed encoder whose layer order names "conv", the
    convolutions of the blocks, taken in order, have as (input, output)
    channels the adjacent pairs of the schedule: the first takes
    [layers[0]], every block takes what the previous one produces, and the
    last produces [layers[-1]]. *)
Theorem encoder_conv_channels_chain
    layers layer_order conv norm activation residual self :
  StridedConvEncoder.__init__ layers layer_order conv norm activation residual = Ok self ->
  "conv" ∈ layer_order ->
  (fun child => conv_channels child.2) <$> children (StridedConvEncoder.net self)
  = Some <$> pairwise layers /\
  (forall i a b c d,
     pairwise layers !! i = Some (a, b) -> pairwise layers !! S i = Some (c, d) -> b = c) /\
  (exists a b c d,
     head (pairwise layers) = Some (a, b) /\ last (pairwise layers) = Some (c, d) /\
     StridedConvEncoder.in_channels self = Ok a /\
     StridedConvEncoder.out_channels self = Ok d).
Proof.
  intros H Hc. apply encoder_init_Ok in H as (l0 & l1 & rest & -> & Hok & ->).
  split_and!.
  - cbn [StridedConvEncoder.net children]. rewrite pairwise_cons2, !fmap_cons.
    f_equal. unfold StridedConvEncoder.blocks_of. rewrite fmap_imap.
    apply list_eq. intros i. rewrite list_lookup_imap, list_lookup_fmap.
    destruct (pairwise (l1 :: rest) !! i) as [pair|] eqn:Hp; [|reflexivity].
    simpl. f_equal. apply conv_channels_block; [exact Hc|].
    rewrite Forall_lookup in Hok. exact (Hok _ _ Hp).
  - intros i a b c d. apply pairwise_chain.
  - unfold StridedConvEncoder.in_channels, StridedConvEncoder.out_channels.
    cbn [StridedConvEncoder._layers]. rewrite getitem_0, getitem_last.
    destruct (last (pairwise (l0 :: l1 :: rest))) as [[c d]|] eqn:Hl;
      [|by apply last_None in Hl].
    exists l0, l1, c, d. split_and!; [reflexivity..|].
    rewrite last_lookup in Hl. apply pairwise_lookup in Hl as [_ Hd].
    rewrite pairwise_length in Hd.
    replace (S (Nat.pred (length (l0 :: l1 :: rest) - 1)))
      with (Nat.pred (length (l0 :: l1 :: rest))) in Hd by (simpl; lia).
    rewrite <- last_lookup in Hd. by rewrite Hd.
Qed.

Lemma encoder_conv_channels_chain_witness :
  exists self,
    StridedConvEncoder.__init__ [3; 64; 128; 128] ["norm"; "conv"]
      "modules.Conv2d" (Some "nn.BatchNorm2d") "modules.LeakyReLU"
      (Some "ResidualModule") = Ok self /\
    (fun child => conv_channels child.2) <$> children (StridedConvEncoder.net self)
    = [Some (3, 64); Some (64, 128); Some (128, 128)].
Proof.
  destruct (StridedConvEncoder.__init__ [3; 64; 128; 128] ["norm"; "conv"]
      "modules.Conv2d" (Some "nn.BatchNorm2d") "modules.LeakyReLU"
      (Some "ResidualModule")) as [self|e] eqn:H;
    [|vm_compute in H; discriminate].
  exists self. split; [reflexivity|].
  destruct (encoder_conv_channels_chain _ _ _ _ _ _ _ H) as (Hch & _ & _);
    [right; left|].
  rewrite Hch. reflexivity.
Defined.

(** ** Failures of the encoder *)

(** X6: with a layer order of registered roles that names "conv", a schedule
    in which some block after the stem has zero input channels makes
    construction raise [ZeroDivisionError] (from the stride division); the
    stem itself accepts any channel counts. *)
Theorem encoder_zero_channels_ZeroDivisionError
    layers layer_order conv norm activation residual i out_ch :
  Forall (fun name => name ∈ ["activation"; "conv"; "norm"]) layer_order ->
  "conv" ∈ layer_order ->
  pairwise (slice_from_1 layers) !! i = Some (0, out_ch) ->
  StridedConvEncoder.__init__ layers layer_order conv norm activation residual
  = Raise ZeroDivisionError.
Proof.
  intros Hreg Hc Hp.
  destruct (StridedConvEncoder.__init__ layers layer_order conv norm activation residual)
    as [self|e] eqn:H.
  - apply encoder_init_Ok in H as (l0 & l1 & rest & -> & Hok & _).
    change (slice_from_1 (l0 :: l1 :: rest)) with (l1 :: rest) in Hp.
    rewrite Forall_lookup in Hok. specialize (Hok _ _ Hp).
    rewrite Forall_forall in Hok. destruct (Hok _ Hc) as [_ Hz]. by destruct (Hz eq_refl).
  - apply encoder_init_Raise in H as [[-> Hl]|[(-> & _)|(bad & -> & Hb & Hn & _)]].
    + apply lookup_lt_Some in Hp. rewrite pairwise_length in Hp.
      unfold slice_from_1 in Hp. rewrite length_drop in Hp. lia.
    + reflexivity.
    + rewrite Forall_forall in Hreg. specialize (Hreg _ Hb).
      apply (name2fn_is_Some conv norm activation) in Hreg. rewrite Hn in Hreg.
      by destruct Hreg.
Qed.

Lemma encoder_zero_channels_ZeroDivisionError_witness :
  StridedConvEncoder.__init__ [3; 64; 0; 8] ["conv"; "activation"] "modules.Conv2d"
    None "modules.LeakyReLU" None = Raise ZeroDivisionError.
Proof.
  apply (encoder_zero_channels_ZeroDivisionError [3; 64; 0; 8] ["conv"; "activation"]
           "modules.Conv2d" None "modules.LeakyReLU" None 1%nat 8).
  - repeat constructor; set_solver.
  - left.
  - reflexivity.
Defined.

(** ** Which exception an unregistered role gives *)

Lemma encoder_add_layers_prefix fns in_ch out_ch pre rest : forall acc,
  Forall (fun name => is_Some (fns !! name)) pre ->
  for_each (StridedConvEncoder.add_layer fns in_ch out_ch) acc (pre ++ rest)
  = if bool_decide ("conv" ∈ pre /\ in_ch = 0)
    then Raise ZeroDivisionError
    else for_each (StridedConvEncoder.add_layer fns in_ch out_ch)
           (acc ++ ((fun name => (name, StridedConvEncoder.layer_of fns in_ch out_ch name))
                      <$> pre)) rest.
Proof.
  induction pre as [|name pre IH]; intros acc Hreg.
  - rewrite bool_decide_eq_false_2 by (intros [H _]; by apply elem_of_nil in H).
    simpl. by rewrite app_nil_r.
  - apply Forall_cons in Hreg as [Hname Hreg].
    change ((name :: pre) ++ rest) with (name :: (pre ++ rest)). rewrite for_each_cons.
    destruct (decide (name = "conv" /\ in_ch = 0)) as [[-> ->]|Hno].
    + rewrite bool_decide_eq_true_2 by (split; [left | reflexivity]).
      unfold StridedConvEncoder.add_layer, floordiv. reflexivity.
    + assert (H1 : StridedConvEncoder.add_layer fns in_ch out_ch acc name
                   = Ok (acc ++ [(name, StridedConvEncoder.layer_of fns in_ch out_ch name)])).
      { apply add_layer_Ok. split; [|reflexivity]. split; [exact Hname|].
        intros -> ->. by apply Hno. }
      rewrite H1. cbn [mbind result_bind]. rewrite IH by exact Hreg.
      rewrite fmap_cons, <- app_assoc. cbn [app].
      case_bool_decide as Hpre; case_bool_decide as Hall; try reflexivity; exfalso.
      * apply Hall. destruct Hpre as [Hin Hz]. split; [by right | exact Hz].
      * apply Hpre. destruct Hall as [Hin Hz]. split; [|exact Hz].
        apply elem_of_cons in Hin as [<-|Hin]; [by destruct Hno | exact Hin].
Qed.

Lemma encoder_add_layers_first_unregistered conv norm activation in_ch out_ch
    layer_order k bad acc :
  first_unregistered (StridedConvEncoder.name2fn conv norm activation) layer_order
  = Some (k, bad) ->
  for_each (StridedConvEncoder.add_layer (StridedConvEncoder.name2fn conv norm activation)
              in_ch out_ch) acc layer_order
  = if bool_decide ("conv" ∈ take k layer_order /\ in_ch = 0)
    then Raise ZeroDivisionError else Raise (KeyError bad).
Proof.
  intros Hf. apply first_unregistered_Some in Hf as (Hsplit & Hreg & Hbad).
  rewrite Hsplit at 1. rewrite encoder_add_layers_prefix by exact Hreg.
  case_bool_decide; [reflexivity|]. rewrite for_each_cons.
  assert (Hlast : forall acc',
            StridedConvEncoder.add_layer (StridedConvEncoder.name2fn conv norm activation)
              in_ch out_ch acc' bad = Raise (KeyError bad)).
  { intros acc'. unfold StridedConvEncoder.add_layer, dict_getitem.
    rewrite bool_decide_eq_false_2; [by rewrite Hbad|].
    intros ->. discriminate Hbad. }
  by rewrite Hlast.
Qed.

Lemma encoder_add_block_first_unregistered conv norm activation layer_order residual
    net i in_ch out_ch k bad :
  first_unregistered (StridedConvEncoder.name2fn conv norm activation) layer_order
  = Some (k, bad) ->
  StridedConvEncoder.add_block (StridedConvEncoder.name2fn conv norm activation)
    layer_order residual net (i, (in_ch, out_ch))
  = if bool_decide ("conv" ∈ take k layer_order /\ in_ch = 0)
    then Raise ZeroDivisionError else Raise (KeyError bad).
Proof.
  intros Hf. unfold StridedConvEncoder.add_block. cbv beta iota.
  rewrite (encoder_add_layers_first_unregistered _ _ _ _ _ _ _ _ _ Hf).
  destruct (bool_decide ("conv" ∈ take k layer_order /\ in_ch = 0)); reflexivity.
Qed.

(** X7: when the layer order of an encoder with at least 3 schedule entries
    has a role that is not "activation", "conv" or "norm", construction
    raises [KeyError] with the first such role as its key; only if "conv"
    comes before that role and the first block after the stem has zero input
    channels does the stride division raise [ZeroDivisionError] first. *)
Theorem encoder_first_unregistered_role
    layers layer_order conv norm activation residual k bad :
  (3 <= length layers)%nat ->
  first_unregistered (StridedConvEncoder.name2fn conv norm activation) layer_order
  = Some (k, bad) ->
  StridedConvEncoder.__init__ layers layer_order conv norm activation residual
  = if bool_decide ("conv" ∈ take k layer_order /\ layers !! 1%nat = Some 0)
    then Raise ZeroDivisionError else Raise (KeyError bad).
Proof.
  intros Hlen Hf.
  destruct layers as [|l0 [|l1 [|l2 rest]]]; [simpl in Hlen; lia..|].
  unfold StridedConvEncoder.__init__. rewrite name2fn_conv, name2fn_activation.
  change (getitem (l0 :: l1 :: l2 :: rest) 0) with (Ok l0).
  change (getitem (l0 :: l1 :: l2 :: rest) 1) with (Ok l1).
  cbn [mbind result_bind call mret result_ret].
  change (slice_from_1 (l0 :: l1 :: l2 :: rest)) with (l1 :: l2 :: rest).
  rewrite pairwise_cons2, enumerate_cons, for_each_cons.
  rewrite (encoder_add_block_first_unregistered _ _ _ _ _ _ _ _ _ _ _ Hf).
  cbn [lookup list_lookup].
  assert (Hiff : bool_decide ("conv" ∈ take k layer_order /\ l1 = 0)
                 = bool_decide ("conv" ∈ take k layer_order /\ Some l1 = Some 0)).
  { apply bool_decide_ext. split; intros [? ?]; split; congruence. }
  rewrite <- Hiff. case_bool_decide; reflexivity.
Qed.

Lemma encoder_first_unregistered_role_witness :
  StridedConvEncoder.__init__ [3; 64; 128] ["conv"; "pool"; "bogus"] "modules.Conv2d"
    None "modules.LeakyReLU" None = Raise (KeyError "pool") /\
  StridedConvEncoder.__init__ [3; 0; 128] ["conv"; "pool"; "bogus"] "modules.Conv2d"
    None "modules.LeakyReLU" None = Raise ZeroDivisionError.
Proof.
  split.
  - rewrite (encoder_first_unregistered_role [3; 64; 128] ["conv"; "pool"; "bogus"]
               "modules.Conv2d" None "modules.LeakyReLU" None 1%nat "pool");
      [reflexivity | simpl; lia | reflexivity].
  - rewrite (encoder_first_unregistered_role [3; 0; 128] ["conv"; "pool"; "bogus"]
               "modules.Conv2d" None "modules.LeakyReLU" None 1%nat "pool");
      [reflexivity | simpl; lia | reflexivity].
Defined.

(** ** The head: when construction goes through, and what it builds *)

(** X8: construction of the head succeeds exactly when there are no latent
    channels or every role of the layer order is one of "activation",
    "dropout", "linear", "norm"; the only exception it can raise is
    [KeyError], and then with the first role of the layer order that is none
    of these as its key. *)
Theorem head_init_outcome
    in_channels out_channels latent_channels layer_order linear activation norm dropout :
  let fns := LinearHead.name2fn linear activation norm dropout in
  let outcome :=
    LinearHead.__init__ in_channels out_channels latent_channels layer_order
      linear activation norm dropout in
  (is_Ok outcome <->
   default [] latent_channels = [] \/
   Forall (fun name => name ∈ ["activation"; "dropout"; "linear"; "norm"]) layer_order) /\
  (forall e, outcome = Raise e ->
     exists k bad, first_unregistered fns layer_order = Some (k, bad) /\ e = KeyError bad) /\
  (forall k bad,
     default [] latent_channels ≠ [] ->
     first_unregistered fns layer_order = Some (k, bad) ->
     outcome = Raise (KeyError bad)).
Proof.
  intros fns outcome.
  assert (Hfirst : forall k bad,
            default [] latent_channels ≠ [] ->
            first_unregistered fns layer_order = Some (k, bad) ->
            outcome = Raise (KeyError bad)).
  { intros k bad Hl Hf. subst outcome. unfold LinearHead.__init__.
    set (latent := default [] latent_channels) in *.
    change (in_channels :: latent ++ [out_channels])
      with ((in_channels :: latent) ++ [out_channels]).
    rewrite pairwise_snoc, slice_to_last_snoc.
    destruct latent as [|c latent]; [by destruct Hl|].
    rewrite pairwise_cons2, for_each_cons.
    change (LinearHead.add_pair (LinearHead.name2fn linear activation norm dropout)
              layer_order [] (in_channels, c))
      with (for_each (LinearHead.add_layer fns in_channels c) [] layer_order).
    apply first_unregistered_Some in Hf as (Hsplit & Hreg & Hbad).
    rewrite Hsplit, for_each_app.
    assert (Hpre : for_each (LinearHead.add_layer fns in_channels c) []
                     (take k layer_order)
                   = Ok ([] ++ LinearHead.layers_of fns (take k layer_order)
                                 (in_channels, c))).
    { apply (head_add_layers_Ok fns (in_channels, c)). auto. }
    rewrite Hpre. cbn [mbind result_bind]. rewrite for_each_cons.
    assert (Hlast : forall acc', LinearHead.add_layer fns in_channels c acc' bad
                                 = Raise (KeyError bad)).
    { intros acc'. unfold LinearHead.add_layer, dict_getitem. by rewrite Hbad. }
    by rewrite Hlast. }
  split_and!.
  - split.
    + intros [self H]. apply head_init_Ok in H as [[Hnil|Hok] _]; [by left | right].
      eapply Forall_impl; [exact Hok|]. intros name Hs.
      exact (proj1 (head_name2fn_is_Some _ _ _ _ _) Hs).
    + intros Hok. eexists. apply head_init_Ok. split; [|reflexivity].
      destruct Hok as [Hnil|Hreg]; [by left | right].
      eapply Forall_impl; [exact Hreg|]. intros name Hn.
      exact (proj2 (head_name2fn_is_Some _ _ _ _ _) Hn).
  - intros e He. pose proof He as He'.
    apply head_init_Raise in He' as (bad' & -> & Hb & Hn & Hl).
    destruct (first_unregistered fns layer_order) as [[k bad]|] eqn:Hf.
    + exists k, bad. split; [reflexivity|].
      rewrite (Hfirst k bad Hl eq_refl) in He. by injection He as <-.
    + apply first_unregistered_None in Hf. rewrite Forall_forall in Hf.
      destruct (Hf _ Hb) as [f Hs]. fold fns in Hn. congruence.
  - exact Hfirst.
Qed.

Lemma head_init_outcome_witness :
  LinearHead.__init__ 512 1 (Some [128; 64]) ["linear"; "relu"; "bogus"] "nn.Linear"
    "modules.LeakyReLU" None None = Raise (KeyError "relu").
Proof.
  destruct (head_init_outcome 512 1 (Some [128; 64]) ["linear"; "relu"; "bogus"]
              "nn.Linear" "modules.LeakyReLU" None None) as (_ & _ & Hfirst).
  apply (Hfirst 1%nat "relu"); [discriminate | reflexivity].
Defined.

(** ** The modules of the head *)

Lemma length_layers_of fns layer_order pair :
  length (LinearHead.layers_of fns layer_order pair) = length layer_order.
Proof. unfold LinearHead.layers_of. apply length_fmap. Qed.

Lemma length_bind_layers_of fns layer_order (pairs : list (Z * Z)) :
  length (pairs ≫= LinearHead.layers_of fns layer_order)
  = (length pairs * length layer_order)%nat.
Proof.
  induction pairs as [|pair rest IH]; [reflexivity|].
  rewrite bind_cons, length_app, length_layers_of, IH. simpl. lia.
Qed.

Lemma names_Sequential_args (l : list nn_Module) :
  names (Sequential_args l) = (fun i : nat => pretty i) <$> seq 0 (length l).
Proof.
  unfold names, Sequential_args. cbn [children]. rewrite fmap_imap.
  rewrite <- (imap_seq_0 l (fun i : nat => pretty i)). apply imap_ext. reflexivity.
Qed.

(** X9: a head that was built has [len(latent_channels) * len(layer_order) + 1]
    modules, one per role of the layer order for every latent channel
    (repeated roles included, unlike in the encoder) and the final linear
    layer; they are named "0", "1", ... in order. *)
Theorem head_module_count
    in_channels out_channels latent_channels layer_order
    linear activation norm dropout self :
  LinearHead.__init__ in_channels out_channels latent_channels layer_order
    linear activation norm dropout = Ok self ->
  length (LinearHead.modules self)
  = (length (default [] latent_channels) * length layer_order + 1)%nat /\
  names (LinearHead.net self)
  = (fun i : nat => pretty i) <$> seq 0 (length (LinearHead.modules self)).
Proof.
  intros H. apply head_init_Ok in H as [_ ->].
  rewrite modules_Sequential_args. cbn [LinearHead.net].
  rewrite names_Sequential_args. split; [|reflexivity].
  rewrite length_app, length_bind_layers_of, pairwise_length. simpl. lia.
Qed.

Lemma head_module_count_witness :
  exists self,
    LinearHead.__init__ 512 1 (Some [128; 64]) ["linear"; "activation"; "activation"]
      "nn.Linear" "modules.LeakyReLU" None None = Ok self /\
    length (LinearHead.modules self) = 7%nat.
Proof.
  destruct (LinearHead.__init__ 512 1 (Some [128; 64]) ["linear"; "activation"; "activation"]
      "nn.Linear" "modules.LeakyReLU" None None) as [self|e] eqn:H;
    [|vm_compute in H; discriminate].
  exists self. split; [reflexivity|].
  destruct (head_module_count _ _ _ _ _ _ _ _ _ H) as [Hlen _].
  rewrite Hlen. reflexivity.
Defined.

Section HeadLinearLayers.
Variables (linear activation : callable) (norm dropout : option callable).
Hypothesis activation_not_linear : activation ≠ linear.
Hypothesis norm_not_linear : norm ≠ Some linear.
Hypothesis dropout_not_linear : dropout ≠ Some linear.

Lemma filter_layers_of layer_order pair :
  Forall (fun name => is_Some (LinearHead.name2fn linear activation norm dropout !! name))
         layer_order ->
  filter (fun m => made_by linear m)
    (LinearHead.layers_of (LinearHead.name2fn linear activation norm dropout)
       layer_order pair)
  = replicate (LinearHead.occurrences "linear" layer_order)
      (Call linear [pair.1; pair.2] []).
Proof.
  unfold LinearHead.occurrences. induction 1 as [|name rest Hn _ IH]; [reflexivity|].
  rewrite layers_of_cons, !filter_cons.
  rewrite (made_by_create_layer linear activation norm dropout
             activation_not_linear norm_not_linear dropout_not_linear) by exact Hn.
  case_bool_decide as Hl.
  - rewrite decide_True by exact I. rewrite decide_True by exact Hl.
    subst name. simpl. by rewrite IH.
  - rewrite decide_False by (intros []). by rewrite decide_False by exact Hl.
Qed.

Lemma filter_bind_layers_of layer_order (pairs : list (Z * Z)) :
  pairs = [] \/
  Forall (fun name => is_Some (LinearHead.name2fn linear activation norm dropout !! name))
         layer_order ->
  LinearHead.occurrences "linear" layer_order = 1%nat ->
  filter (fun m => made_by linear m)
    (pairs ≫= LinearHead.layers_of (LinearHead.name2fn linear activation norm dropout)
                layer_order)
  = (fun pair => Call linear [pair.1; pair.2] []) <$> pairs.
Proof.
  intros Hok Hone. induction pairs as [|pair rest IH]; [reflexivity|].
  destruct Hok as [[=]|Hok].
  rewrite bind_cons, filter_app, filter_layers_of, Hone by exact Hok.
  rewrite IH by auto. reflexivity.
Qed.
End HeadLinearLayers.

(** X10: in a head that was built from a layer order naming "linear" once
    (the other factories being other callables), the linear layers, in
    order, have as (input, output) sizes the adjacent pairs of
    [in_channels, *latent_channels, out_channels]: the first takes
    [in_channels], each takes what the previous one produces, and the last
    produces [out_channels]. *)
Theorem head_linear_chain
    in_channels out_channels latent_channels layer_order
    linear activation norm dropout self :
  let channels := in_channels :: default [] latent_channels ++ [out_channels] in
  LinearHead.__init__ in_channels out_channels latent_channels layer_order
    linear activation norm dropout = Ok self ->
  LinearHead.occurrences "linear" layer_order = 1%nat ->
  activation ≠ linear -> norm ≠ Some linear -> dropout ≠ Some linear ->
  filter (fun m => made_by linear m) (LinearHead.modules self)
  = (fun pair => Call linear [pair.1; pair.2] []) <$> pairwise channels /\
  (forall i a b c d,
     pairwise channels !! i = Some (a, b) -> pairwise channels !! S i = Some (c, d) ->
     b = c) /\
  (exists b c,
     head (pairwise channels) = Some (in_channels, b) /\
     last (pairwise channels) = Some (c, out_channels)).
Proof.
  intros channels H Hone Ha Hn Hd. apply head_init_Ok in H as [Hok ->].
  set (latent := default [] latent_channels) in *.
  assert (Hpairs : pairwise channels
                   = pairwise (in_channels :: latent)
                       ++ [(default in_channels (last latent), out_channels)]).
  { subst channels.
    change (in_channels :: latent ++ [out_channels])
      with ((in_channels :: latent) ++ [out_channels]).
    apply pairwise_snoc. }
  split_and!.
  - rewrite modules_Sequential_args, filter_app, Hpairs, fmap_app.
    rewrite (filter_bind_layers_of linear activation norm dropout Ha Hn Hd)
      by (first [exact Hone | destruct Hok as [Hnil|Hreg];
                               [left; by rewrite Hnil | by right]]).
    f_equal. by rewrite filter_cons_True by (by apply bool_decide_pack).
  - intros i a b c d. apply pairwise_chain.
  - rewrite Hpairs, last_snoc. destruct latent as [|c latent].
    + exists out_channels, in_channels. split; reflexivity.
    + exists c, (default in_channels (last (c :: latent))). split; reflexivity.
Qed.

Lemma head_linear_chain_witness :
  exists self,
    LinearHead.__init__ 512 1 (Some [128; 64]) ["linear"; "activation"; "dropout"]
      "nn.Linear" "modules.LeakyReLU" None (Some "nn.Dropout") = Ok self /\
    filter (fun m => made_by "nn.Linear" m) (LinearHead.modules self)
    = [Call "nn.Linear" [512; 128] []; Call "nn.Linear" [128; 64] [];
       Call "nn.Linear" [64; 1] []].
Proof.
  destruct (LinearHead.__init__ 512 1 (Some [128; 64]) ["linear"; "activation"; "dropout"]
      "nn.Linear" "modules.LeakyReLU" None (Some "nn.Dropout")) as [self|e] eqn:H;
    [|vm_compute in H; discriminate].
  exists self. split; [reflexivity|].
  destruct (head_linear_chain _ _ _ _ _ _ _ _ _ H) as (Hch & _ & _);
    [reflexivity | discriminate..|].
  rewrite Hch. reflexivity.
Defined.

(** ** The forward pass of the classifier *)

Section ClassifierForward.
Context {scalar : Type}.
Implicit Types (x y : @VGGConv.Tensor scalar) (self : @VGGConv.t scalar).

(** X11: line 228 returns exactly on a tensor with a non-empty first axis
    whose strides let the axes after the first be viewed as one, as the
    strides of every contiguous tensor (of non-negative sizes) do; the
    result has the shape (first axis, product of the other sizes) and the
    elements of the argument.  A tensor without axes makes it raise
    [IndexError] (from [x.shape[0]]), an empty batch [RuntimeError] (the
    [-1] of [view] cannot be inferred), and so do strides that do not fit. *)
Theorem flatten_outcome x :
  (forall y, VGGConv.flatten x = Ok y <->
     exists d0 rest stride',
       VGGConv.shape x = d0 :: rest /\ 0 < d0 /\
       VGGConv.compute_stride (d0 :: rest) (VGGConv.stride x) [d0; VGGConv.numel rest]
       = Some stride' /\
       y = {| VGGConv.shape := [d0; VGGConv.numel rest]; VGGConv.stride := stride';
              VGGConv.data := VGGConv.data x |}) /\
  (VGGConv.contiguous x -> Forall (fun d => 0 <= d) (VGGConv.shape x) ->
   forall y, VGGConv.flatten x = Ok y <->
     exists d0 rest,
       VGGConv.shape x = d0 :: rest /\ 0 < d0 /\
       y = VGGConv.dense [d0; VGGConv.numel rest] (VGGConv.data x)) /\
  (VGGConv.shape x = [] -> VGGConv.flatten x = Raise IndexError) /\
  (forall rest, VGGConv.shape x = 0 :: rest -> VGGConv.flatten x = Raise RuntimeError) /\
  (forall d0 rest,
     VGGConv.shape x = d0 :: rest ->
     VGGConv.compute_stride (d0 :: rest) (VGGConv.stride x) [d0; VGGConv.numel rest] = None ->
     VGGConv.flatten x = Raise RuntimeError).
Proof.
  split_and!.
  - intros y. split; [apply flatten_Ok_inv|].
    intros (d0 & rest & stride' & Hs & Hd & Hc & ->).
    by rewrite (flatten_nonempty x d0 rest Hs Hd), Hc.
  - intros Hc Hpos y. split.
    + intros H. pose proof H as (d0 & rest & stride' & Hs & Hd & _ & _)%flatten_Ok_inv.
      rewrite Hs in Hpos. apply Forall_cons in Hpos as [_ Hrest].
      rewrite (flatten_contiguous x d0 rest Hs Hd Hrest Hc) in H.
      injection H as <-. by exists d0, rest.
    + intros (d0 & rest & Hs & Hd & ->).
      rewrite Hs in Hpos. apply Forall_cons in Hpos as [_ Hrest].
      by apply flatten_contiguous.
  - apply flatten_no_axes.
  - intros rest Hs. apply (flatten_nonpositive_batch x 0 rest Hs). lia.
  - intros d0 rest Hs Hc. rewrite flatten_cases, Hs, Hc. by case_bool_decide.
Qed.

(** X12: where line 228 goes through, the result has two axes, the first
    axis, the elements and their number are those of its argument, and
    applying the line again changes nothing. *)
Theorem flatten_keeps_elements x y :
  VGGConv.flatten x = Ok y ->
  exists d0 n,
    VGGConv.shape y = [d0; n] /\
    head (VGGConv.shape x) = Some d0 /\
    VGGConv.numel (VGGConv.shape y) = VGGConv.numel (VGGConv.shape x) /\
    VGGConv.data y = VGGConv.data x /\
    VGGConv.flatten y = Ok y.
Proof.
  intros H. apply flatten_Ok_inv in H as (d0 & rest & stride' & Hs & Hd & Hc & ->).
  exists d0, (VGGConv.numel rest). cbn [VGGConv.shape VGGConv.data].
  rewrite Hs. split_and!; [reflexivity | reflexivity | | reflexivity |].
  - unfold VGGConv.numel. simpl. lia.
  - erewrite flatten_nonempty; [|reflexivity|exact Hd].
    cbn [VGGConv.stride VGGConv.data].
    assert (Hn : VGGConv.numel [VGGConv.numel rest] = VGGConv.numel rest)
      by (unfold VGGConv.numel at 1; simpl; lia).
    rewrite Hn.
    by rewrite (compute_stride_flat_idem (d0 :: rest) (VGGConv.stride x)
                  d0 (VGGConv.numel rest) stride' Hd (numel_cons d0 rest) Hc).
Qed.

(** X13: the forward pass returns a value exactly when the encoder and the
    pool return, the pooled tensor has a non-empty first axis and strides
    that let line 228 view the axes after the first as one, and the head
    returns on the pooled tensor viewed as (first axis, everything else);
    the value is the head's.  When the pooled tensor is contiguous with a
    non-empty first axis (and no negative size), the forward pass is the
    head on the flattened pooled tensor. *)
Theorem classifier_forward_Ok_iff self x tr y :
  ((VGGConv.forward self x tr).1 = Ok y <->
   exists a b d0 rest stride',
     VGGConv.encoder self x = Ok a /\
     VGGConv.pool self a = Ok b /\
     VGGConv.shape b = d0 :: rest /\ 0 < d0 /\
     VGGConv.compute_stride (d0 :: rest) (VGGConv.stride b) [d0; VGGConv.numel rest]
     = Some stride' /\
     VGGConv.head self {| VGGConv.shape := [d0; VGGConv.numel rest];
                          VGGConv.stride := stride';
                          VGGConv.data := VGGConv.data b |} = Ok y) /\
  (forall a b d0 rest,
     VGGConv.encoder self x = Ok a ->
     VGGConv.pool self a = Ok b ->
     VGGConv.shape b = d0 :: rest -> 0 < d0 -> Forall (fun d => 0 <= d) rest ->
     VGGConv.contiguous b ->
     (VGGConv.forward self x tr).1
     = VGGConv.head self (VGGConv.dense [d0; VGGConv.numel rest] (VGGConv.data b))).
Proof.
  rewrite forward_result. split; [split|].
  - intros H. apply bind_Ok_inv in H as (a & Ha & H).
    apply bind_Ok_inv in H as (b & Hb & H).
    apply bind_Ok_inv in H as (c & Hc & H).
    apply flatten_Ok_inv in Hc as (d0 & rest & stride' & Hs & Hd & Hc & ->).
    exists a, b, d0, rest, stride'. auto 6.
  - intros (a & b & d0 & rest & stride' & Ha & Hb & Hs & Hd & Hc & Hy).
    rewrite Ha. cbn [mbind result_bind]. rewrite Hb. cbn [mbind result_bind].
    by rewrite (flatten_nonempty b d0 rest Hs Hd), Hc.
  - intros a b d0 rest Ha Hb Hs Hd Hrest Hc.
    rewrite Ha. cbn [mbind result_bind]. rewrite Hb. cbn [mbind result_bind].
    by rewrite (flatten_contiguous b d0 rest Hs Hd Hrest Hc).
Qed.

(** X14: the forward pass calls the encoder on its input, the pool on the
    encoder's result and the head on the reshaped result of the pool, in
    this order and once each; the exception of the first stage that fails is
    the exception of the forward pass, and no later stage is called: when
    line 228 fails, the head is not called. *)
Theorem classifier_forward_calls self x tr :
  match VGGConv.encoder self x with
  | Raise e =>
      VGGConv.forward self x tr = (Raise e, tr ++ [VGGConv.ModuleCall "encoder" x])
  | Ok a =>
      match VGGConv.pool self a with
      | Raise e =>
          VGGConv.forward self x tr
          = (Raise e, tr ++ [VGGConv.ModuleCall "encoder" x; VGGConv.ModuleCall "pool" a])
      | Ok b =>
          match VGGConv.flatten b with
          | Raise e =>
              VGGConv.forward self x tr
              = (Raise e,
                 tr ++ [VGGConv.ModuleCall "encoder" x; VGGConv.ModuleCall "pool" a])
          | Ok c =>
              VGGConv.forward self x tr
              = (VGGConv.head self c,
                 tr ++ [VGGConv.ModuleCall "encoder" x; VGGConv.ModuleCall "pool" a;
                        VGGConv.ModuleCall "head" c])
          end
      end
  end.
Proof.
  cbv [VGGConv.forward VGGConv.call_module VGGConv.flatten emit lift
       mbind traced_bind mret traced_ret result_bind result_ret].
  destruct (VGGConv.encoder self x) as [a|e]; [|reflexivity].
  destruct (VGGConv.pool self a) as [b|e]; [|by rewrite <- app_assoc].
  destruct (getitem (VGGConv.shape b) 0) as [d0|e]; [|by rewrite <- app_assoc].
  destruct (VGGConv.view b [d0; -1]) as [c|e]; [|by rewrite <- app_assoc].
  rewrite <- !app_assoc. by destruct (VGGConv.head self c).
Qed.
End ClassifierForward.

Lemma flatten_outcome_witness :
  VGGConv.flatten {| VGGConv.shape := [2; 4; 3]; VGGConv.stride := [12; 1; 4];
                     VGGConv.data := @nil Z |}
  = Raise RuntimeError /\
  VGGConv.flatten (VGGConv.dense [0; 512; 1; 1] (@nil Z)) = Raise RuntimeError.
Proof.
  split.
  - destruct (@flatten_outcome Z {| VGGConv.shape := [2; 4; 3];
                                    VGGConv.stride := [12; 1; 4];
                                    VGGConv.data := [] |})
      as (_ & _ & _ & _ & Hstrides).
    apply (Hstrides 2 [4; 3]); reflexivity.
  - destruct (@flatten_outcome Z (VGGConv.dense [0; 512; 1; 1] []))
      as (_ & _ & _ & Hempty & _).
    apply (Hempty [512; 1; 1]). reflexivity.
Defined.

Lemma flatten_keeps_elements_witness :
  exists y,
    VGGConv.flatten (VGGConv.dense [2; 3; 1; 1] [1; 2; 3; 4; 5; 6]) = Ok y /\
    VGGConv.shape y = [2; 3] /\ VGGConv.flatten y = Ok y.
Proof.
  destruct (VGGConv.flatten (VGGConv.dense [2; 3; 1; 1] [1; 2; 3; 4; 5; 6]))
    as [y|e] eqn:H; [|vm_compute in H; discriminate].
  exists y. split; [reflexivity|].
  destruct (flatten_keeps_elements _ _ H) as (d0 & n & _ & _ & _ & _ & Hidem).
  split; [|exact Hidem]. vm_compute in H. by injection H as <-.
Defined.

Lemma classifier_forward_Ok_iff_witness :
  (VGGConv.forward {| VGGConv.encoder := Ok; VGGConv.pool := Ok; VGGConv.head := Ok |}
     (VGGConv.dense [2; 3; 1; 1] [1; 2; 3; 4; 5; 6]) []).1
  = Ok (VGGConv.dense [2; 3] [1; 2; 3; 4; 5; 6]).
Proof.
  apply (proj2 (classifier_forward_Ok_iff
                  {| VGGConv.encoder := Ok; VGGConv.pool := Ok; VGGConv.head := Ok |}
                  (VGGConv.dense [2; 3; 1; 1] [1; 2; 3; 4; 5; 6]) []
                  (VGGConv.dense [2; 3] [1; 2; 3; 4; 5; 6]))
           (VGGConv.dense [2; 3; 1; 1] [1; 2; 3; 4; 5; 6])
           (VGGConv.dense [2; 3; 1; 1] [1; 2; 3; 4; 5; 6]) 2 [3; 1; 1]).
  - reflexivity.
  - reflexivity.
  - reflexivity.
  - lia.
  - repeat constructor; lia.
  - reflexivity.
Defined.
